(** * k8s-spot-rescheduler: the control loop of [rescheduler.go]

    A shallow embedding of the reconciliation loop ([run]), the placement
    planner ([findSpotNodeForPod], [canDrainNode]), the drain executor
    wrapper ([drainNode]) and the taint reconciler
    ([removeTaintFromAllSpotNodes]).

    The collaborators the program consumes through interfaces (listers, the
    API client, the predicate checker, the forkable snapshot, the packages
    [nodes], [scaler] and [metrics]) are type classes: every theorem holds
    for all their instances, and the examples run on a small concrete
    cluster. *)

From Stdlib Require Import ZArith List Lia Ascii.
From stdpp Require Import base option list gmap strings.

Open Scope Z_scope.

(** ** Kubernetes objects, as far as the program reads or writes them *)

(** [metav1.OwnerReference]: [Controller] is a [*bool]; [None] is nil. *)
Record OwnerReference := mkOwner {
  owner_Kind : string;
  owner_Controller : option bool
}.

(** [apiv1.Pod]: [pod_NodeName] is [Spec.NodeName]; [pod_Annotations] is a
    Go map, where a missing key reads as the empty string. *)
Record Pod := mkPod {
  pod_Namespace : string;
  pod_Name : string;
  pod_Annotations : gmap string string;
  pod_OwnerReferences : list OwnerReference;
  pod_NodeName : string
}.

Record Taint := mkTaint {
  taint_Key : string;
  taint_Value : string;
  taint_Effect : string
}.

(** [apiv1.Node]: [node_Taints] is the slice [Spec.Taints] (its elements up
    to its length). *)
Record Node := mkNode {
  node_Name : string;
  node_Taints : list Taint
}.

(** A [*apiv1.Pod] is an address; an address the heap does not hold is the
    nil pointer. *)
Definition PodPtr := nat.

(** [nodes.NodeInfo], the fields [rescheduler.go] uses. *)
Record NodeInfo := mkNodeInfo {
  ni_Node : Node;
  ni_Pods : list PodPtr
}.

Definition NodeInfoArray := list NodeInfo.

(** [nodes.NodeMap], indexed by [nodes.OnDemand] and [nodes.Spot]. *)
Record NodeMap := mkNodeMap {
  nm_OnDemand : NodeInfoArray;
  nm_Spot : NodeInfoArray
}.

Record PodDisruptionBudget := mkPDB {
  pdb_Namespace : string;
  pdb_Name : string
}.

Record BlockingPod := mkBlockingPod {
  bp_Pod : PodPtr;
  bp_Reason : nat
}.

(** A Go [error] value, by its message. *)
Definition Err := string.

(** ** Time

    Instants and durations in nanoseconds; an instant is an integer without
    bound, as far as the program goes. [time.Time.Sub] saturates at the
    bounds of [Duration] (an int64). [time.Now] reads the clock of the
    cluster state; the clock moves in the calls to the cluster. *)

Definition Time := Z.
Definition Duration := Z.

Definition maxDuration : Duration := 2 ^ 63 - 1.
Definition minDuration : Duration := - 2 ^ 63.
Definition Second : Duration := 1000000000.

Definition wrap64 (z : Z) : Z := (z + 2 ^ 63) mod 2 ^ 64 - 2 ^ 63.

Definition Time_Sub (t u : Time) : Duration :=
  Z.max minDuration (Z.min maxDuration (t - u)).

Definition Time_Add (t : Time) (d : Duration) : Time := t + d.

(** [Duration.Round]: to the nearest multiple of [m], halves away from
    zero. *)
Definition Duration_Round (d m : Duration) : Duration :=
  if m <=? 0 then d
  else
    let r := Z.rem d m in
    if d <? 0 then
      let r := - r in
      if r + r <? m then d + r
      else
        let d1 := wrap64 (d - m + r) in
        if d1 <? d then d1 else minDuration
    else
      if r + r <? m then d - r
      else
        let d1 := wrap64 (d + m - r) in
        if d1 >? d then d1 else maxDuration.

(** ** Flags *)

Record Config := mkConfig {
  housekeepingInterval : Duration;
  nodeDrainDelay : Duration;
  podEvictionTimeout : Duration;
  maxGracefulTermination : Duration;
  spotTaintToBeRemoved : string;
  deleteNonReplicatedPods : bool;
  OnDemandNodeLabel : string;
  SpotNodeLabel : string
}.

(** ** What a run does: log lines and calls to collaborators *)

Inductive Severity :=
| SevInfo
| SevError
| SevV (level : nat).

(** The log statements of [rescheduler.go], one constructor each, with the
    arguments they format. *)
Inductive LogMsg :=
| MsgWaitingDrainDelay (d : Duration)
| MsgFailedUnschedulable (e : Err)
| MsgWaitingUnschedulable
| MsgStartingNodeProcessing
| MsgFailedListNodes (e : Err)
| MsgFailedBuildNodeMap (e : Err)
| MsgFailedListPDBs (e : Err)
| MsgNoNodesToProcess
| MsgBlockingPod (e : option Err)
| MsgFailedPodsForConsideration (e : Err)
| MsgIgnoringDaemonSetPod (id : string)
| MsgNoPodsSkipping (node : string)
| MsgConsidering (node : string)
| MsgCannotDrain (e : Err)
| MsgWillDrain (node : string)
| MsgFailedDrain (e : Err)
| MsgFinishedProcessing
| MsgFailedUpdateNode (node : string) (e : option Err)
| MsgRemovedTaint (node : string)
| MsgCantReschedule (id node : string) (e : Err)
| MsgEvictWithoutSpot (id : string)
| MsgAddingToPlan (id node : string)
| MsgFailedSpotMetrics (node : string) (e : Err).

Inductive Event :=
| EvLog (sev : Severity) (msg : LogMsg)
| EvListUnschedulablePods
| EvListNodes
| EvNewNodeMap
| EvUpdateNodesMap (m : NodeMap)
| EvListPDBs
| EvGetClusterSnapshot
| EvGetPodsForDeletionOnNodeDrain (node : string)
| EvUpdateNodePodsCount (label node : string) (count : nat)
| EvNodeUpdate (node : Node)
| EvFork
| EvRevert
| EvAddPod (pod : PodPtr) (node : string)
| EvDrainNode (node : string) (pods : list PodPtr) (at_time : Time)
    (* the call of [scaler.DrainNode], with the clock at the call *)
| EvUpdateNodeDrainCount (result node : string).

(** Run-time panics of the Go program. *)
Inductive PanicKind :=
| NilDereference
| IndexOutOfRange (index : Z) (len : nat).

Inductive Outcome (A : Type) :=
| Ok (a : A)
| Panic (p : PanicKind).

Arguments Ok {A} a.
Arguments Panic {A} p.

(** ** Collaborators *)

(** The cluster behind the API client and the listers: a state [E] with a
    clock. Each call answers and moves the state. The drain-eligibility
    helper of the autoscaler is a function of its arguments and of the pods
    it is pointed at. *)
Class Cluster (E : Type) := {
  clock : E -> Time;
  time_After : Duration -> E -> unit * E;
  unschedulablePodLister_List : E -> (list PodPtr * option Err) * E;
  nodeLister_List : E -> (list Node * option Err) * E;
  NewNodeMap : gmap PodPtr Pod -> list Node -> E -> (NodeMap * option Err) * E;
  podDisruptionBudgetLister_List : E -> (list PodDisruptionBudget * option Err) * E;
  GetPodsForDeletionOnNodeDrain :
    gmap PodPtr Pod -> list PodPtr -> list PodDisruptionBudget ->
    bool -> bool -> bool -> Time ->
    list PodPtr * option BlockingPod * option Err;
  Nodes_Update : Node -> E -> (option Node * option Err) * E;
  scaler_DrainNode :
    gmap PodPtr Pod -> Node -> list PodPtr -> E -> option Err * E
}.

(** [simulator.ClusterSnapshot] with [simulator.PredicateChecker]; the
    snapshot is mutated in place by the program, here it is passed along. *)
Class ClusterSnapshot (S : Type) := {
  GetClusterSnapshot : gmap PodPtr Pod -> NodeInfoArray -> S;
  Fork : S -> S;
  Revert : S -> S;
  AddPod : S -> Pod -> string -> S;
  CheckPredicates : S -> Pod -> string -> option Err
}.

(** ** The monad of the program: state, emitted events, panics *)

Section Monad.
Context {E : Type}.

(** The pod heap and the cluster. *)
Record St := mkSt {
  heap : gmap PodPtr Pod;
  ext : E
}.

Record Res (A : Type) := mkRes {
  res_out : Outcome A;
  res_st : St;
  res_evs : list Event
}.

Definition M (A : Type) := St -> Res A.

Definition ret {A} (a : A) : M A := fun st => mkRes A (Ok a) st [].

Definition bind {A B} (m : M A) (k : A -> M B) : M B := fun st =>
  let r := m st in
  match res_out A r with
  | Ok a =>
      let r' := k a (res_st A r) in
      mkRes B (res_out B r') (res_st B r') (res_evs A r ++ res_evs B r')
  | Panic p => mkRes B (Panic p) (res_st A r) (res_evs A r)
  end.

Definition panic {A} (p : PanicKind) : M A := fun st => mkRes A (Panic p) st [].

Definition emit (e : Event) : M unit := fun st => mkRes unit (Ok tt) st [e].

Definition glog (sev : Severity) (msg : LogMsg) : M unit := emit (EvLog sev msg).

Definition get_heap : M (gmap PodPtr Pod) := fun st => mkRes _ (Ok (heap st)) st [].

Definition get_ext : M E := fun st => mkRes _ (Ok (ext st)) st [].

(** A call to the cluster. *)
Definition call {A} (f : E -> A * E) : M A := fun st =>
  mkRes A (Ok (f (ext st)).1) (mkSt (heap st) (f (ext st)).2) [].

Definition lift {A} (o : Outcome A) : M A := fun st => mkRes A o st [].

(** [*pod]: a nil pointer panics. *)
Definition deref (p : PodPtr) : M Pod := fun st =>
  match heap st !! p with
  | Some pod => mkRes Pod (Ok pod) st []
  | None => mkRes Pod (Panic NilDereference) st []
  end.

(** An assignment to fields of [*pod]. *)
Definition update (p : PodPtr) (f : Pod -> Pod) : M unit := fun st =>
  match heap st !! p with
  | Some pod => mkRes unit (Ok tt) (mkSt (<[p := f pod]> (heap st)) (ext st)) []
  | None => mkRes unit (Panic NilDereference) st []
  end.
End Monad.

Arguments St : clear implicits.
Arguments Res : clear implicits.
Arguments M : clear implicits.
Arguments mkRes {E A} _ _ _.
Arguments res_out {E A} _.
Arguments res_st {E A} _.
Arguments res_evs {E A} _.

Notation "x <- m ;; k" := (bind m (fun x => k))
(at level 100, m at next level, right associativity).
Notation "m ;;; k" := (bind m (fun _ => k))
(at level 100, right associativity).

(** ** The program *)

Section Rescheduler.
Context {E S : Type} `{!Cluster E} `{!ClusterSnapshot S}.
Variable cfg : Config.

Definition podID (pod : Pod) : string :=
  pod_Namespace pod +:+ "/" +:+ pod_Name pod.

(** [pod.Annotations[key]] *)
Definition annotation (pod : Pod) (key : string) : string :=
  default "" (pod_Annotations pod !! key).

Definition safeToEvictKey : string :=
  "cluster-autoscaler.kubernetes.io/safe-to-evict".

(** [pod.Spec.NodeName = ""] *)
Definition clearNodeName (pod : Pod) : Pod :=
  mkPod (pod_Namespace pod) (pod_Name pod) (pod_Annotations pod)
        (pod_OwnerReferences pod) "".

(** *** The daemon-set exclusion of [run] (the loop over
    [pod.GetOwnerReferences()]): [*owner.Controller] is evaluated first, for
    each owner up to the first daemon-set controller. *)
Fixpoint controlledByDaemonSet (owners : list OwnerReference) : Outcome bool :=
  match owners with
  | [] => Ok false
  | owner :: rest =>
      match owner_Controller owner with
      | None => Panic NilDereference
      | Some c =>
          if c && bool_decide (owner_Kind owner = "DaemonSet")
          then Ok true
          else controlledByDaemonSet rest
      end
  end.

(** The loop of [run] that builds [podsForDeletion] from [allPods]. *)
Fixpoint buildPodsForDeletion (allPods : list PodPtr) (podsForDeletion : list PodPtr)
  : M E (list PodPtr) :=
  match allPods with
  | [] => ret podsForDeletion
  | pod :: rest =>
      p <- deref pod ;;
      ds <- lift (controlledByDaemonSet (pod_OwnerReferences p)) ;;
      if (ds : bool) then
        glog (SevV 4) (MsgIgnoringDaemonSetPod (podID p)) ;;;
        buildPodsForDeletion rest podsForDeletion
      else
        buildPodsForDeletion rest (podsForDeletion ++ [pod])
  end.

(** *** The placement planner *)

Fixpoint findSpotNodeForPod (spotSnapshot : S) (nodes : NodeInfoArray) (pod : PodPtr)
  : M E string :=
  match nodes with
  | [] => ret ""
  | nodeInfo :: rest =>
      update pod clearNodeName ;;;
      p <- deref pod ;;
      match CheckPredicates spotSnapshot p (node_Name (ni_Node nodeInfo)) with
      | None => ret (node_Name (ni_Node nodeInfo))
      | Some err =>
          glog (SevV 4)
               (MsgCantReschedule (podID p) (node_Name (ni_Node nodeInfo)) err) ;;;
          findSpotNodeForPod spotSnapshot rest pod
      end
  end.

Definition cannotRescheduleError (pod : Pod) : Err :=
  "Pod " +:+ podID pod +:+
  " can't be rescheduled on any existing node [cluster-autoscaler.kubernetes.io/safe-to-evict=false]".

(** Returns the error (or nil) and the snapshot as the calls left it. *)
Fixpoint canDrainNode (spotSnapshot : S) (nodes : NodeInfoArray) (pods : list PodPtr)
  : M E (option Err * S) :=
  match pods with
  | [] => ret (None, spotSnapshot)
  | pod :: rest =>
      nodeName <- findSpotNodeForPod spotSnapshot nodes pod ;;
      p <- deref pod ;;
      if decide (nodeName = "") then
        if decide (annotation p safeToEvictKey = "false") then
          ret (Some (cannotRescheduleError p), spotSnapshot)
        else
          glog (SevV 4) (MsgEvictWithoutSpot (podID p)) ;;;
          canDrainNode spotSnapshot nodes rest
      else
        glog (SevV 4) (MsgAddingToPlan (podID p) nodeName) ;;;
        emit (EvAddPod pod nodeName) ;;;
        canDrainNode (AddPod spotSnapshot p nodeName) nodes rest
  end.

(** *** The drain executor wrapper *)

Definition drainNode (node : Node) (pods : list PodPtr) : M E (option Err) :=
  h <- get_heap ;;
  e <- get_ext ;;
  emit (EvDrainNode (node_Name node) pods (clock e)) ;;;
  err <- call (scaler_DrainNode h node pods) ;;
  match err with
  | Some er =>
      emit (EvUpdateNodeDrainCount "Failure" (node_Name node)) ;;;
      ret (Some er)
  | None =>
      emit (EvUpdateNodeDrainCount "Success" (node_Name node)) ;;;
      ret None
  end.

Fixpoint updateSpotNodeMetrics (spotNodeInfos : NodeInfoArray)
    (pdbs : list PodDisruptionBudget) : M E unit :=
  match spotNodeInfos with
  | [] => ret tt
  | nodeInfo :: rest =>
      h <- get_heap ;;
      e <- get_ext ;;
      emit (EvGetPodsForDeletionOnNodeDrain (node_Name (ni_Node nodeInfo))) ;;;
      let r := GetPodsForDeletionOnNodeDrain h (ni_Pods nodeInfo) pdbs
                 (deleteNonReplicatedPods cfg) false false (clock e) in
      match r.2 with
      | Some er =>
          glog SevError (MsgFailedSpotMetrics (node_Name (ni_Node nodeInfo)) er) ;;;
          updateSpotNodeMetrics rest pdbs
      | None =>
          emit (EvUpdateNodePodsCount (SpotNodeLabel cfg)
                  (node_Name (ni_Node nodeInfo)) (length r.1.1)) ;;;
          updateSpotNodeMetrics rest pdbs
      end
  end.

(** *** The taint reconciler

    The inner loop ranges over the slice as it was when the loop started:
    [idxs] are its indices, [arr] is its backing array, which the loop
    writes, and [n] is the current length of [Spec.Taints], which the loop
    shrinks. [Taints[len(Taints)-1]] panics on an empty slice, [Taints[i]]
    panics when [i] is not below the current length. *)
Fixpoint removeTaint_range (name : string) (idxs : list nat)
    (arr : list Taint) (n : nat) : M E (list Taint * nat) :=
  match idxs with
  | [] => ret (arr, n)
  | i :: rest =>
      match arr !! i with
      | None => panic (IndexOutOfRange (Z.of_nat i) (length arr))
      | Some taint =>
          if decide (taint_Key taint = spotTaintToBeRemoved cfg) then
            match n with
            | O => panic (IndexOutOfRange (-1) 0)
            | Datatypes.S n' =>
                match arr !! n' with
                | None => panic (IndexOutOfRange (Z.of_nat n') (length arr))
                | Some last =>
                    if decide (i < n)%nat then
                      let arr' := <[i := last]> arr in
                      let node := mkNode name (take n' arr') in
                      emit (EvNodeUpdate node) ;;;
                      r <- call (Nodes_Update node) ;;
                      match r.2, r.1 with
                      | None, Some updated =>
                          glog SevInfo (MsgRemovedTaint (node_Name updated))
                      | _, _ =>
                          glog SevError (MsgFailedUpdateNode name r.2)
                      end ;;;
                      removeTaint_range name rest arr' n'
                    else panic (IndexOutOfRange (Z.of_nat i) n)
                end
            end
          else removeTaint_range name rest arr n
      end
  end.

(** One spot node: the node as the loop leaves it. *)
Definition removeTaint_node (nodeInfo : NodeInfo) : M E NodeInfo :=
  let taints := node_Taints (ni_Node nodeInfo) in
  r <- removeTaint_range (node_Name (ni_Node nodeInfo))
         (seq 0 (length taints)) taints (length taints) ;;
  ret (mkNodeInfo (mkNode (node_Name (ni_Node nodeInfo)) (take r.2 r.1))
                  (ni_Pods nodeInfo)).

Fixpoint removeTaint_nodes (spotNodeInfos : NodeInfoArray) : M E NodeInfoArray :=
  match spotNodeInfos with
  | [] => ret []
  | nodeInfo :: rest =>
      nodeInfo' <- removeTaint_node nodeInfo ;;
      rest' <- removeTaint_nodes rest ;;
      ret (nodeInfo' :: rest')
  end.

(** The nodes are mutated through pointers; the array with the nodes as
    mutated is returned. *)
Definition removeTaintFromAllSpotNodes (spotNodeInfos : NodeInfoArray)
  : M E NodeInfoArray :=
  if decide (spotTaintToBeRemoved cfg = "") then ret spotNodeInfos
  else removeTaint_nodes spotNodeInfos.

(** *** The control loop *)

(** The loop of [run] over the on-demand nodes; [continue] goes on with the
    rest, [break] returns. The result is [nextDrainTime]. *)
Fixpoint drainLoop (onDemandNodeInfos spotNodeInfos : NodeInfoArray)
    (allPDBs : list PodDisruptionBudget) (spotSnapshot : S)
    (nextDrainTime : Time) : M E Time :=
  match onDemandNodeInfos with
  | [] => ret nextDrainTime
  | nodeInfo :: rest =>
      h <- get_heap ;;
      e <- get_ext ;;
      emit (EvGetPodsForDeletionOnNodeDrain (node_Name (ni_Node nodeInfo))) ;;;
      let r := GetPodsForDeletionOnNodeDrain h (ni_Pods nodeInfo) allPDBs
                 (deleteNonReplicatedPods cfg) false false (clock e) in
      match r.1.2 with
      | Some _ => glog SevInfo (MsgBlockingPod r.2)
      | None => ret tt
      end ;;;
      match r.2 with
      | Some er =>
          glog SevError (MsgFailedPodsForConsideration er) ;;;
          drainLoop rest spotNodeInfos allPDBs spotSnapshot nextDrainTime
      | None =>
          podsForDeletion <- buildPodsForDeletion r.1.1 [] ;;
          emit (EvUpdateNodePodsCount (OnDemandNodeLabel cfg)
                  (node_Name (ni_Node nodeInfo)) (length podsForDeletion)) ;;;
          if (length podsForDeletion <? 1)%nat then
            glog (SevV 2) (MsgNoPodsSkipping (node_Name (ni_Node nodeInfo))) ;;;
            drainLoop rest spotNodeInfos allPDBs spotSnapshot nextDrainTime
          else
            glog (SevV 2) (MsgConsidering (node_Name (ni_Node nodeInfo))) ;;;
            emit EvFork ;;;
            plan <- canDrainNode (Fork spotSnapshot) spotNodeInfos podsForDeletion ;;
            match plan.1 with
            | Some er =>
                glog (SevV 2) (MsgCannotDrain er) ;;;
                emit EvRevert ;;;
                drainLoop rest spotNodeInfos allPDBs (Revert plan.2) nextDrainTime
            | None =>
                glog (SevV 2) (MsgWillDrain (node_Name (ni_Node nodeInfo))) ;;;
                err <- drainNode (ni_Node nodeInfo) podsForDeletion ;;
                match err with
                | Some er => glog SevError (MsgFailedDrain er)
                | None => ret tt
                end ;;;
                e' <- get_ext ;;
                ret (Time_Add (clock e') (nodeDrainDelay cfg))
            end
      end
  end.

(** One iteration of the [for] of [run], after the timer fired. *)
Definition tick (nextDrainTime : Time) : M E Time :=
  e <- get_ext ;;
  if Time_Sub nextDrainTime (clock e) >? 0 then
    e' <- get_ext ;;
    glog (SevV 2)
         (MsgWaitingDrainDelay
            (Duration_Round (Time_Sub nextDrainTime (clock e')) Second)) ;;;
    ret nextDrainTime
  else
    emit EvListUnschedulablePods ;;;
    unsched <- call unschedulablePodLister_List ;;
    match unsched.2 with
    | Some er => glog SevError (MsgFailedUnschedulable er)
    | None => ret tt
    end ;;;
    if (0 <? length unsched.1)%nat then
      glog (SevV 2) MsgWaitingUnschedulable ;;;
      ret nextDrainTime
    else
      glog (SevV 3) MsgStartingNodeProcessing ;;;
      emit EvListNodes ;;;
      allNodes <- call nodeLister_List ;;
      match allNodes.2 with
      | Some er => glog SevError (MsgFailedListNodes er) ;;; ret nextDrainTime
      | None =>
          h <- get_heap ;;
          emit EvNewNodeMap ;;;
          nodeMap <- call (NewNodeMap h allNodes.1) ;;
          match nodeMap.2 with
          | Some er => glog SevError (MsgFailedBuildNodeMap er) ;;; ret nextDrainTime
          | None =>
              emit (EvUpdateNodesMap nodeMap.1) ;;;
              emit EvListPDBs ;;;
              allPDBs <- call podDisruptionBudgetLister_List ;;
              match allPDBs.2 with
              | Some er => glog SevError (MsgFailedListPDBs er) ;;; ret nextDrainTime
              | None =>
                  h' <- get_heap ;;
                  emit EvGetClusterSnapshot ;;;
                  let spotSnapshot := GetClusterSnapshot h' (nm_Spot nodeMap.1) in
                  updateSpotNodeMetrics (nm_Spot nodeMap.1) allPDBs.1 ;;;
                  spotNodeInfos <- removeTaintFromAllSpotNodes (nm_Spot nodeMap.1) ;;
                  (if (length (nm_OnDemand nodeMap.1) <? 1)%nat
                   then glog (SevV 2) MsgNoNodesToProcess
                   else ret tt) ;;;
                  next <- drainLoop (nm_OnDemand nodeMap.1) spotNodeInfos
                            allPDBs.1 spotSnapshot nextDrainTime ;;
                  glog (SevV 3) MsgFinishedProcessing ;;;
                  ret next
              end
          end
      end.

(** [ticks] iterations of the loop of [run]. *)
Fixpoint run_ticks (ticks : nat) (nextDrainTime : Time) : M E Time :=
  match ticks with
  | O => ret nextDrainTime
  | Datatypes.S ticks' =>
      call (time_After (housekeepingInterval cfg)) ;;;
      next <- tick nextDrainTime ;;
      run_ticks ticks' next
  end.

(** [run], stopped after [ticks] iterations: [nextDrainTime] starts as
    [time.Now()]. *)
Definition run (ticks : nat) : M E Time :=
  e <- get_ext ;;
  run_ticks ticks (clock e).

End Rescheduler.

(** *** The check of the label flags *)

(** [strings.Split(s, sep)] for a separator [sep] of one byte, as in
    [strings.Split(label, "=")]: the pieces between the separators. *)
Fixpoint strings_Split (s : string) (sep : Ascii.ascii) : list string :=
  match s with
  | EmptyString => [EmptyString]
  | String c rest =>
      if Ascii.eqb c sep then EmptyString :: strings_Split rest sep
      else
        match strings_Split rest sep with
        | [] => [String c EmptyString]
        | piece :: pieces => String c piece :: pieces
        end
  end.

Definition onDemandLabelError (label : string) : Err :=
  "the on demand node label is not correctly formatted: expected '<label_name>' or '<label_name>=<label_value>', but got "
  +:+ label.

Definition spotLabelError (label : string) : Err :=
  "the spot node label is not correctly formatted: expected '<label_name>' or '<label_name>=<label_value>', but got "
  +:+ label.

Definition validateArgs (onDemandNodeLabel spotNodeLabel : string) : option Err :=
  if (2 <? length (strings_Split onDemandNodeLabel "="%char))%nat then
    Some (onDemandLabelError onDemandNodeLabel)
  else if (2 <? length (strings_Split spotNodeLabel "="%char))%nat then
    Some (spotLabelError spotNodeLabel)
  else None.

(** ** Traces and what is said of them *)

(** [r] with [evs] emitted before it. *)
Definition prefixed {E A} (evs : list Event) (r : Res E A) : Res E A :=
  mkRes (res_out r) (res_st r) (evs ++ res_evs r).

Definition is_drain (e : Event) : bool :=
  match e with
  | EvDrainNode _ _ _ => true
  | _ => false
  end.

(** What [run] still does in a tick once the drain executor was called. *)
Definition after_drain (e : Event) : bool :=
  match e with
  | EvUpdateNodeDrainCount _ _ => true
  | EvLog SevError (MsgFailedDrain _) => true
  | EvLog (SevV 3) MsgFinishedProcessing => true
  | _ => false
  end.

(** A trace with no call of the drain executor, or with one, after which
    nothing but the bookkeeping of that drain happens. *)
Fixpoint drains_once_then_stops (evs : list Event) : bool :=
  match evs with
  | [] => true
  | e :: rest =>
      if is_drain e then forallb after_drain rest
      else drains_once_then_stops rest
  end.

Definition drain_count (evs : list Event) : nat :=
  length (filter (fun e => is_drain e = true) evs).

(** [m] keeps [R] between the state before and the state after, and [Q st]
    of the events it emits from [st] on. *)
Definition keeps {E : Type} (R : St E -> St E -> Prop)
    (Q : St E -> Event -> Prop) {A} (m : M E A) : Prop :=
  forall st, R st (res_st (m st)) /\ Forall (Q st) (res_evs (m st)).

(** ** Traces with at most one drain *)

Definition quiet (evs : list Event) : Prop :=
  Forall (fun e => is_drain e = false) evs.

Inductive one_drain : list Event -> Prop :=
| one_drain_none evs :
    quiet evs -> one_drain evs
| one_drain_once pre node pods t post :
    quiet pre -> forallb after_drain post = true ->
    one_drain (pre ++ EvDrainNode node pods t :: post).

Definition drainResult (err : option Err) : string :=
  match err with
  | Some _ => "Failure"
  | None => "Success"
  end.

Definition started_from (t0 : Time) (e : Event) : Prop :=
  match e with
  | EvDrainNode _ _ t => t0 <= t
  | _ => True
  end.

(** The owner is a controller and a daemon set. *)
Definition isDaemonSetController (owner : OwnerReference) : bool :=
  match owner_Controller owner with
  | Some c => c && bool_decide (owner_Kind owner = "DaemonSet")
  | None => false
  end.

Definition ownedByDaemonSet (h : gmap PodPtr Pod) (pod : PodPtr) : bool :=
  match h !! pod with
  | Some p => existsb isDaemonSetController (pod_OwnerReferences p)
  | None => false
  end.

(** The pod is there and each of its owner references has [Controller]
    set. *)
Definition controllersSet (h : gmap PodPtr Pod) (pod : PodPtr) : Prop :=
  exists p,
    h !! pod = Some p /\
    Forall (fun owner => owner_Controller owner <> None) (pod_OwnerReferences p).

(** The drains of a trace are at or after [lower], and each is at least
    [delay] after the one before. *)
Fixpoint drains_spaced (delay : Duration) (lower : Time) (evs : list Event) : Prop :=
  match evs with
  | [] => True
  | EvDrainNode _ _ t :: rest => lower <= t /\ drains_spaced delay (t + delay) rest
  | _ :: rest => drains_spaced delay lower rest
  end.

(** The log line of [removeTaintFromAllSpotNodes] for the answer of an
    update. *)
Definition updateLog (name : string) (r : option Node * option Err) : Event :=
  match r.2, r.1 with
  | None, Some updated => EvLog SevInfo (MsgRemovedTaint (node_Name updated))
  | _, _ => EvLog SevError (MsgFailedUpdateNode name r.2)
  end.

(** What the taint reconciler does to a node when it returns: the taints
    with the key are gone, the others are there in some order, the rest of
    the node is as it was. *)
Definition reconciled (key : string) (before after : NodeInfo) : Prop :=
  node_Name (ni_Node after) = node_Name (ni_Node before) /\
  ni_Pods after = ni_Pods before /\
  Forall (fun t => taint_Key t <> key) (node_Taints (ni_Node after)) /\
  node_Taints (ni_Node after) ≡ₚ
  filter (fun t => taint_Key t <> key) (node_Taints (ni_Node before)).

(** The number of bytes [c] in [s]. *)
Fixpoint strings_Count (s : string) (c : Ascii.ascii) : nat :=
  match s with
  | EmptyString => 0%nat
  | String c' rest =>
      if Ascii.eqb c' c then Datatypes.S (strings_Count rest c)
      else strings_Count rest c
  end.

(** The pieces with [sep] between them. *)
Fixpoint strings_Join (pieces : list string) (sep : string) : string :=
  match pieces with
  | [] => EmptyString
  | [piece] => piece
  | piece :: rest => piece +:+ sep +:+ strings_Join rest sep
  end.

(** Whether the loop of the taint reconciler panics on a slice: [rest] are
    the taints from index [i] on, [n] is the length the slice has when the
    loop is at [i]. *)
Fixpoint faults_from (key : string) (n i : nat) (rest : list Taint) : bool :=
  match rest with
  | [] => false
  | taint :: rest' =>
      if bool_decide (taint_Key taint = key) then
        if (n <=? i)%nat then true
        else faults_from key (n - 1) (Datatypes.S i) rest'
      else faults_from key n (Datatypes.S i) rest'
  end.

Definition removalFaults (key : string) (taints : list Taint) : bool :=
  faults_from key (length taints) 0 taints.

(** The pods of the [AddPod] calls of a trace, with the nodes, in order. *)
Fixpoint placements (evs : list Event) : list (PodPtr * string) :=
  match evs with
  | [] => []
  | EvAddPod pod node :: rest => (pod, node) :: placements rest
  | _ :: rest => placements rest
  end.

(** The number of node updates of a trace. *)
Fixpoint updateCount (evs : list Event) : nat :=
  match evs with
  | [] => 0%nat
  | EvNodeUpdate _ :: rest => Datatypes.S (updateCount rest)
  | _ :: rest => updateCount rest
  end.

(** The nodes the drain-eligibility helper is called for in a trace, in
    order. *)
Fixpoint helperCalls (evs : list Event) : list string :=
  match evs with
  | [] => []
  | EvGetPodsForDeletionOnNodeDrain node :: rest => node :: helperCalls rest
  | _ :: rest => helperCalls rest
  end.

(** The log line of [run] for a blocking pod. *)
Definition blockingLog (blocking : option BlockingPod) (err : option Err)
  : list Event :=
  match blocking with
  | Some _ => [EvLog SevInfo (MsgBlockingPod err)]
  | None => []
  end.

Section Vocabulary.
Context {E S : Type} `{!Cluster E} `{!ClusterSnapshot S}.
Variable cfg : Config.

(** The two ways a tick goes: it calls the drain executor nowhere and
    leaves [nextDrainTime] as it is, or it calls it once, from a state
    [st_d], and returns [time.Now().Add(nodeDrainDelay)] read when the
    executor is back. *)
Inductive tick_run (next : Time) : Res E Time -> Prop :=
| tick_run_quiet r :
    quiet (res_evs r) ->
    (forall next', res_out r = Ok next' -> next' = next) ->
    tick_run next r
| tick_run_drain pre post node pods st_d :
    quiet pre ->
    forallb after_drain post = true ->
    tick_run next
      (mkRes
         (Ok (Time_Add
                (clock (scaler_DrainNode (heap st_d) node pods (ext st_d)).2)
                (nodeDrainDelay cfg)))
         (mkSt (heap st_d) (scaler_DrainNode (heap st_d) node pods (ext st_d)).2)
         (pre ++ EvDrainNode (node_Name node) pods (clock (ext st_d)) :: post)).

(** *** The planner as a first fit over the spot nodes *)

Definition accepts (snap : S) (pod : Pod) (nodeInfo : NodeInfo) : bool :=
  match CheckPredicates snap pod (node_Name (ni_Node nodeInfo)) with
  | None => true
  | Some _ => false
  end.

(** The name of the first node of the sequence whose predicates accept the
    pod, the empty string when there is none. *)
Definition firstFit (snap : S) (pod : Pod) (nodes : NodeInfoArray) : string :=
  match find (accepts snap pod) nodes with
  | Some nodeInfo => node_Name (ni_Node nodeInfo)
  | None => ""
  end.

(** The log lines for the nodes tried before the first that accepts. *)
Fixpoint rejections (snap : S) (pod : Pod) (nodes : NodeInfoArray) : list Event :=
  match nodes with
  | [] => []
  | nodeInfo :: rest =>
      match CheckPredicates snap pod (node_Name (ni_Node nodeInfo)) with
      | None => []
      | Some err =>
          EvLog (SevV 4)
                (MsgCantReschedule (podID pod) (node_Name (ni_Node nodeInfo)) err)
          :: rejections snap pod rest
      end
  end.

(** The state after a search for [pod]: with a spot node to try, the pod
    object has lost its node name. *)
Definition searched (nodes : NodeInfoArray) (pod : PodPtr) (st : St E) : St E :=
  match nodes, heap st !! pod with
  | _ :: _, Some p => mkSt (<[pod := clearNodeName p]> (heap st)) (ext st)
  | _, _ => st
  end.

(** No call to the cluster turns its clock back. *)
Record clock_monotone : Prop := {
  mono_time_After : forall d e, clock e <= clock (time_After d e).2;
  mono_unschedulable : forall e,
    clock e <= clock (unschedulablePodLister_List e).2;
  mono_nodes : forall e, clock e <= clock (nodeLister_List e).2;
  mono_nodeMap : forall h nodes e, clock e <= clock (NewNodeMap h nodes e).2;
  mono_pdbs : forall e, clock e <= clock (podDisruptionBudgetLister_List e).2;
  mono_update : forall node e, clock e <= clock (Nodes_Update node e).2;
  mono_drain : forall h node pods e,
    clock e <= clock (scaler_DrainNode h node pods e).2
}.

End Vocabulary.

(** ** A small concrete cluster, to run the program on *)

Module Demo.

(** The answers the collaborators give, and the clock. Every call takes a
    second, a drain takes a minute. *)
Record World := mkWorld {
  w_now : Time;
  w_unschedulable : list PodPtr * option Err;
  w_nodes : list Node * option Err;
  w_nodeMap : NodeMap * option Err;
  w_pdbs : list PodDisruptionBudget * option Err;
  w_updateErr : option Err;
  w_drainErr : option Err
}.

Definition advance (d : Duration) (w : World) : World :=
  mkWorld (w_now w + d) (w_unschedulable w) (w_nodes w) (w_nodeMap w)
          (w_pdbs w) (w_updateErr w) (w_drainErr w).

#[export] Instance world_cluster : Cluster World := {|
  clock := w_now;
  time_After := fun d w => (tt, advance (Z.max 0 d) w);
  unschedulablePodLister_List := fun w => (w_unschedulable w, advance Second w);
  nodeLister_List := fun w => (w_nodes w, advance Second w);
  NewNodeMap := fun _ _ w => (w_nodeMap w, advance Second w);
  podDisruptionBudgetLister_List := fun w => (w_pdbs w, advance Second w);
  GetPodsForDeletionOnNodeDrain := fun _ pods _ _ _ _ _ => (pods, None, None);
  Nodes_Update := fun node w =>
    (match w_updateErr w with
     | Some er => (None, Some er)
     | None => (Some node, None)
     end, advance Second w);
  scaler_DrainNode := fun _ _ _ w => (w_drainErr w, advance (60 * Second) w)
|}.

(** A snapshot: the pods placed on each node, and the layers below the
    current fork. A node takes one pod; the node called [full] takes none. *)
Record Snap := mkSnap {
  placed : list (string * string);
  saved : list (list (string * string))
}.

Definition podsOn (s : Snap) (node : string) : nat :=
  length (filter (fun pn => bool_decide (pn.2 = node)) (placed s)).

#[export] Instance snap_snapshot : ClusterSnapshot Snap := {|
  GetClusterSnapshot := fun _ _ => mkSnap [] [];
  Fork := fun s => mkSnap (placed s) (placed s :: saved s);
  Revert := fun s =>
    match saved s with
    | [] => s
    | l :: ls => mkSnap l ls
    end;
  AddPod := fun s pod node => mkSnap ((pod_Name pod, node) :: placed s) (saved s);
  CheckPredicates := fun s pod node =>
    if bool_decide (node = "full") then Some "Insufficient cpu"
    else if (podsOn s node <? 1)%nat then None
    else Some "Too many pods"
|}.

Definition config : Config :=
  mkConfig (10 * Second) (600 * Second) (120 * Second) (120 * Second)
           "preempt" false
           "kubernetes.io/role=worker" "kubernetes.io/role=spot-worker".

Definition replicaSetOwner : OwnerReference := mkOwner "ReplicaSet" (Some true).

Definition web : Pod :=
  mkPod "default" "web" ∅ [replicaSetOwner] "on-demand-1".

Definition api : Pod :=
  mkPod "default" "api" ∅ [replicaSetOwner] "on-demand-1".

(** A pod that must not be evicted. *)
Definition db : Pod :=
  mkPod "default" "db" {[ safeToEvictKey := "false" ]} [replicaSetOwner] "on-demand-1".

(** A pod with an owner that does not say whether it is the controller. *)
Definition job : Pod :=
  mkPod "default" "job" {[ safeToEvictKey := "true" ]}
        [mkOwner "Workflow" None] "on-demand-1".

Definition spot1 : NodeInfo := mkNodeInfo (mkNode "spot-1" []) [].
Definition spotFull : NodeInfo := mkNodeInfo (mkNode "full" []) [].

Definition onDemand (pods : list PodPtr) : NodeInfo :=
  mkNodeInfo (mkNode "on-demand-1" []) pods.

Definition world (unsched : list PodPtr * option Err) (m : NodeMap)
    (drainErr : option Err) : World :=
  mkWorld 1000 unsched ([], None) (m, None) ([], None) None drainErr.

End Demo.

(** ** The program on the concrete cluster *)

Module Cases.
Import Demo.

Definition state (pods : gmap PodPtr Pod) (w : World) : St World := mkSt pods w.

Definition emptySnap : Snap := mkSnap [] [].

(** One on-demand node with the pod [db], one spot node with room. *)
Definition blockerFits : St World :=
  state {[ 1%nat := db ]}
        (world ([], None) (mkNodeMap [onDemand [1%nat]] [spot1]) None).

(** The same, with a spot node without room. *)
Definition blockerDoesNotFit : St World :=
  state {[ 1%nat := db ]}
        (world ([], None) (mkNodeMap [onDemand [1%nat]] [spotFull]) None).

(** Two pods to move, a full spot node and one with room for one pod. *)
Definition twoPods : St World :=
  state {[ 1%nat := web; 2%nat := api ]}
        (world ([], None)
               (mkNodeMap [onDemand [1%nat; 2%nat]] [spotFull; spot1]) None).

(** The drain fails. *)
Definition drainFails : St World :=
  state {[ 1%nat := web ]}
        (world ([], None) (mkNodeMap [onDemand [1%nat]] [spot1])
               (Some "eviction timed out")).

(** Three pods wait for a node. *)
Definition pending : St World :=
  state {[ 1%nat := web ]}
        (world ([7%nat; 8%nat; 9%nat], None)
               (mkNodeMap [onDemand [1%nat]] [spot1]) None).

(** The listing of unschedulable pods fails. *)
Definition listFails : St World :=
  state {[ 1%nat := web ]}
        (world ([], Some "cache not synced")
               (mkNodeMap [onDemand [1%nat]] [spot1]) None).

(** A pod with an owner reference without [controller]. *)
Definition nilController : St World :=
  state {[ 1%nat := job ]}
        (world ([], None) (mkNodeMap [onDemand [1%nat]] [spot1]) None).

Definition preemptNoSchedule : Taint := mkTaint "preempt" "" "NoSchedule".
Definition preemptNoExecute : Taint := mkTaint "preempt" "" "NoExecute".
Definition gpuNoSchedule : Taint := mkTaint "gpu" "" "NoSchedule".

Definition spotWith (taints : list Taint) : NodeInfo :=
  mkNodeInfo (mkNode "spot-x" taints) [].

Definition tainted (taints : list Taint) : St World :=
  state ∅ (world ([], None) (mkNodeMap [] [spotWith taints]) None).

(** No node at all. *)
Definition emptyCluster : St World :=
  state ∅ (world ([], None) (mkNodeMap [] []) None).

Definition daemonSetOwner : OwnerReference := mkOwner "DaemonSet" (Some true).

Definition agent : Pod :=
  mkPod "kube-system" "agent" ∅ [daemonSetOwner] "on-demand-1".

(** An on-demand node with only a daemon-set pod. *)
Definition daemonSetOnly : St World :=
  state {[ 1%nat := agent ]}
        (world ([], None) (mkNodeMap [onDemand [1%nat]] [spot1]) None).





(** A pod to move and a daemon-set pod. *)
Definition mixedPods : St World :=
  state {[ 1%nat := web; 2%nat := agent ]}
        (world ([], None) (mkNodeMap [onDemand [1%nat; 2%nat]] [spot1]) None).

End Cases.

(** A cluster whose drain-eligibility helper refuses a node with a pod
    that has no owner. *)
Module Strict.
Import Demo.

Record StrictWorld := mkStrict { inner : World }.

Definition unreplicated (h : gmap PodPtr Pod) (pod : PodPtr) : bool :=
  match h !! pod with
  | Some p =>
      match pod_OwnerReferences p with
      | [] => true
      | _ :: _ => false
      end
  | None => false
  end.

Definition lifted {A} (f : World -> A * World) (w : StrictWorld)
  : A * StrictWorld :=
  ((f (inner w)).1, mkStrict (f (inner w)).2).

#[export] Instance strict_cluster : Cluster StrictWorld := {|
  clock := fun w => w_now (inner w);
  time_After := fun d => lifted (time_After d);
  unschedulablePodLister_List := lifted unschedulablePodLister_List;
  nodeLister_List := lifted nodeLister_List;
  NewNodeMap := fun h nodes => lifted (NewNodeMap h nodes);
  podDisruptionBudgetLister_List := lifted podDisruptionBudgetLister_List;
  GetPodsForDeletionOnNodeDrain := fun h pods _ _ _ _ _ =>
    match find (unreplicated h) pods with
    | Some pod => ([], Some (mkBlockingPod pod 1), Some "pod is not replicated")
    | None => (pods, None, None)
    end;
  Nodes_Update := fun node => lifted (Nodes_Update node);
  scaler_DrainNode := fun h node pods => lifted (scaler_DrainNode h node pods)
|}.

Definition orphan : Pod := mkPod "default" "orphan" ∅ [] "on-demand-1".

(** An on-demand node with a pod without owner. *)
Definition orphanOnNode : St StrictWorld :=
  mkSt {[ 1%nat := orphan ]}
       (mkStrict (world ([], None) (mkNodeMap [onDemand [1%nat]] [spot1]) None)).

End Strict.

(** * Properties *)



Section Runs.
Context {E : Type}.

Lemma bind_run {A B} (m : M E A) (k : A -> M E B) (st : St E) :
  bind m k st =
  match res_out (m st) with
  | Ok a => prefixed (res_evs (m st)) (k a (res_st (m st)))
  | Panic p => mkRes (Panic p) (res_st (m st)) (res_evs (m st))
  end.
Proof. unfold bind, prefixed. destruct (res_out (m st)); reflexivity. Qed.

Lemma bind_evs {A B} (m : M E A) (k : A -> M E B) (st : St E) :
  res_evs (bind m k st) =
  res_evs (m st) ++
  match res_out (m st) with
  | Ok a => res_evs (k a (res_st (m st)))
  | Panic _ => []
  end.
Proof.
  rewrite bind_run. destruct (res_out (m st)); simpl; [reflexivity|].
  symmetry. apply app_nil_r.
Qed.

Lemma prefixed_nil {A} (r : Res E A) : prefixed [] r = r.
Proof. destruct r; reflexivity. Qed.

Lemma prefixed_app {A} (evs1 evs2 : list Event) (r : Res E A) :
  prefixed evs1 (prefixed evs2 r) = prefixed (evs1 ++ evs2) r.
Proof. unfold prefixed; simpl. by rewrite app_assoc. Qed.

(** *** Properties every step of a computation keeps

    [R] relates the state before to the state after, [Q st] holds of the
    events emitted from [st] on. *)
Section Keeps.
Variable R : St E -> St E -> Prop.
Variable Q : St E -> Event -> Prop.
Hypothesis R_refl : forall st, R st st.
Hypothesis R_trans : forall st1 st2 st3, R st1 st2 -> R st2 st3 -> R st1 st3.
Hypothesis Q_mono : forall st1 st2 e, R st1 st2 -> Q st2 e -> Q st1 e.


Lemma keeps_ret {A} (a : A) : keeps R Q (ret a).
Proof. intros st; simpl; auto. Qed.

Lemma keeps_panic {A} (p : PanicKind) : keeps R Q (@panic E A p).
Proof. intros st; simpl; auto. Qed.

Lemma keeps_lift {A} (o : Outcome A) : keeps R Q (@lift E A o).
Proof. intros st; simpl; auto. Qed.

Lemma keeps_get_heap : keeps R Q (@get_heap E).
Proof. intros st; simpl; auto. Qed.

Lemma keeps_get_ext : keeps R Q (@get_ext E).
Proof. intros st; simpl; auto. Qed.

Lemma keeps_deref (p : PodPtr) : keeps R Q (@deref E p).
Proof. intros st; unfold deref; destruct (heap st !! p); simpl; auto. Qed.

Lemma keeps_call {A} (f : E -> A * E) :
  (forall st, R st (mkSt (heap st) (f (ext st)).2)) -> keeps R Q (call f).
Proof. intros HR st; simpl; auto. Qed.

Lemma keeps_update (p : PodPtr) (f : Pod -> Pod) :
  (forall st pod, heap st !! p = Some pod ->
                  R st (mkSt (<[p := f pod]> (heap st)) (ext st))) ->
  keeps R Q (@update E p f).
Proof.
  intros HR st; unfold update. destruct (heap st !! p) eqn:Hp; simpl; auto.
Qed.

Lemma keeps_emit (e : Event) : (forall st, Q st e) -> keeps R Q (@emit E e).
Proof. intros HQ st; simpl; auto. Qed.

Lemma keeps_glog (sev : Severity) (msg : LogMsg) :
  (forall st, Q st (EvLog sev msg)) -> keeps R Q (@glog E sev msg).
Proof. apply keeps_emit. Qed.

Lemma keeps_bind {A B} (m : M E A) (k : A -> M E B) :
  keeps R Q m -> (forall a, keeps R Q (k a)) -> keeps R Q (bind m k).
Proof.
  intros Hm Hk st. destruct (Hm st) as [HR HQ].
  rewrite bind_run. destruct (res_out (m st)) as [a|p]; simpl; [|auto].
  destruct (Hk a (res_st (m st))) as [HR' HQ']. split.
  - eapply R_trans; eauto.
  - apply Forall_app. split; [assumption|].
    eapply Forall_impl; [exact HQ'|]. intros e He. eapply Q_mono; eauto.
Qed.

End Keeps.
End Runs.

(** *** What the parts of a tick keep *)

Section ProgramKeeps.
Context {E S : Type} `{!Cluster E} `{!ClusterSnapshot S}.
Variable cfg : Config.
Variable R : St E -> St E -> Prop.
Variable Q : St E -> Event -> Prop.
Hypothesis R_refl : forall st, R st st.
Hypothesis R_trans : forall st1 st2 st3, R st1 st2 -> R st2 st3 -> R st1 st3.
Hypothesis Q_mono : forall st1 st2 e, R st1 st2 -> Q st2 e -> Q st1 e.
Hypothesis Q_quiet : forall st e, is_drain e = false -> Q st e.
Hypothesis R_clear : forall st p pod,
  heap st !! p = Some pod ->
  R st (mkSt (<[p := clearNodeName pod]> (heap st)) (ext st)).
Hypothesis R_update : forall node st,
  R st (mkSt (heap st) (Nodes_Update node (ext st)).2).

Ltac keeps_step :=
  first
    [ apply (keeps_ret R Q R_refl)
    | apply (keeps_panic R Q R_refl)
    | apply (keeps_lift R Q R_refl)
    | apply (keeps_get_heap R Q R_refl)
    | apply (keeps_get_ext R Q R_refl)
    | apply (keeps_deref R Q R_refl)
    | apply (keeps_glog R Q R_refl); intros; apply Q_quiet; reflexivity
    | apply (keeps_emit R Q R_refl); intros; apply Q_quiet; reflexivity
    | apply (keeps_update R Q R_refl); intros; apply R_clear; assumption
    | apply (keeps_call R Q); intros; apply R_update
    | assumption
    | match goal with
      | IH : context [keeps] |- _ => solve [apply IH]
      end
    | apply (keeps_bind R Q R_trans Q_mono); [ try assumption | intros ]
    | match goal with
      | |- keeps _ _ (match ?x with _ => _ end) => destruct x
      end ].

Ltac keeps_quiet := repeat keeps_step.

Lemma keeps_buildPodsForDeletion allPods : forall acc,
  keeps R Q (@buildPodsForDeletion E allPods acc).
Proof.
  induction allPods as [|pod rest IH]; intros acc; simpl; keeps_quiet.
Qed.

Lemma keeps_findSpotNodeForPod (snap : S) nodes pod :
  keeps R Q (@findSpotNodeForPod E S _ snap nodes pod).
Proof.
  induction nodes as [|ni rest IH]; simpl; keeps_quiet.
Qed.

Lemma keeps_canDrainNode nodes pods : forall snap : S,
  keeps R Q (@canDrainNode E S _ snap nodes pods).
Proof.
  induction pods as [|pod rest IH]; intros snap; simpl; keeps_quiet.
  apply keeps_findSpotNodeForPod.
Qed.

Lemma keeps_updateSpotNodeMetrics spot pdbs :
  keeps R Q (@updateSpotNodeMetrics E _ cfg spot pdbs).
Proof.
  induction spot as [|ni rest IH]; simpl; keeps_quiet.
Qed.

Lemma keeps_removeTaint_range name idxs : forall arr n,
  keeps R Q (@removeTaint_range E _ cfg name idxs arr n).
Proof.
  induction idxs as [|i rest IH]; intros arr n; simpl; keeps_quiet.
Qed.

Lemma keeps_removeTaintFromAllSpotNodes spot :
  keeps R Q (@removeTaintFromAllSpotNodes E _ cfg spot).
Proof.
  unfold removeTaintFromAllSpotNodes. destruct (decide _); [keeps_quiet|].
  induction spot as [|ni rest IH]; simpl; keeps_quiet.
  apply keeps_removeTaint_range.
Qed.

(** The whole tick, for properties that also hold of the other calls and
    of the call of the drain executor. *)
Hypothesis R_unschedulable : forall st,
  R st (mkSt (heap st) (unschedulablePodLister_List (ext st)).2).
Hypothesis R_nodes : forall st,
  R st (mkSt (heap st) (nodeLister_List (ext st)).2).
Hypothesis R_nodeMap : forall h nodes st,
  R st (mkSt (heap st) (NewNodeMap h nodes (ext st)).2).
Hypothesis R_pdbs : forall st,
  R st (mkSt (heap st) (podDisruptionBudgetLister_List (ext st)).2).
Hypothesis R_drain : forall h node pods st,
  R st (mkSt (heap st) (scaler_DrainNode h node pods (ext st)).2).
Hypothesis Q_drain : forall st node pods,
  Q st (EvDrainNode node pods (clock (ext st))).

Lemma keeps_drainNode node pods : keeps R Q (@drainNode E _ node pods).
Proof.
  intros st. unfold drainNode, bind; simpl.
  pose proof (R_drain (heap st) node pods st) as HR.
  destruct (scaler_DrainNode (heap st) node pods (ext st)) as [[er|] e'];
    simpl in *; (split; [exact HR|]);
    repeat constructor; auto.
Qed.

Ltac keeps_all :=
  repeat first
    [ apply keeps_drainNode
    | apply keeps_buildPodsForDeletion
    | apply keeps_canDrainNode
    | apply keeps_updateSpotNodeMetrics
    | apply keeps_removeTaintFromAllSpotNodes
    | apply (keeps_call R Q); intros; solve [auto]
    | keeps_step
    | match goal with
      | |- keeps _ _ (if ?b then _ else _) => destruct b
      end ].

Lemma keeps_drainLoop onDemand spot pdbs : forall (snap : S) next,
  keeps R Q (@drainLoop E S _ _ cfg onDemand spot pdbs snap next).
Proof.
  induction onDemand as [|ni rest IH]; intros snap next; simpl; keeps_all.
Qed.

Lemma keeps_tick next : keeps R Q (@tick E S _ _ cfg next).
Proof.
  unfold tick. keeps_all. apply keeps_drainLoop.
Qed.

End ProgramKeeps.


Lemma after_drain_quiet post :
  forallb after_drain post = true -> quiet post.
Proof.
  intros H. apply Forall_forall. intros e He.
  rewrite forallb_forall in H. apply list_elem_of_In in He.
  specialize (H e He). destruct e; try discriminate; reflexivity.
Qed.

Lemma one_drain_prefix pre evs :
  quiet pre -> one_drain evs -> one_drain (pre ++ evs).
Proof.
  intros Hpre [evs' Hq | pre' node pods t post Hq Hpost].
  - apply one_drain_none. apply Forall_app; auto.
  - rewrite app_assoc. apply one_drain_once; [|assumption].
    apply Forall_app; auto.
Qed.

Lemma one_drain_suffix evs tail :
  one_drain evs -> forallb after_drain tail = true -> one_drain (evs ++ tail).
Proof.
  intros [evs' Hq | pre node pods t post Hq Hpost] Htail.
  - apply one_drain_none. apply Forall_app. split; [assumption|].
    by apply after_drain_quiet.
  - rewrite <- app_assoc. simpl. apply one_drain_once; [assumption|].
    rewrite forallb_app, Hpost, Htail. reflexivity.
Qed.

Lemma quiet_drains_once_then_stops evs :
  quiet evs -> drains_once_then_stops evs = true.
Proof.
  induction 1 as [|e evs He _ IH]; simpl; [reflexivity|]. by rewrite He.
Qed.

Lemma one_drain_stops evs :
  one_drain evs -> drains_once_then_stops evs = true.
Proof.
  intros [evs' Hq | pre node pods t post Hq Hpost].
  - by apply quiet_drains_once_then_stops.
  - induction Hq as [|e pre He _ IH]; simpl; [assumption|]. by rewrite He.
Qed.

Lemma quiet_drain_count evs : quiet evs -> drain_count evs = 0%nat.
Proof.
  unfold drain_count. induction 1 as [|e evs He _ IH]; simpl; [reflexivity|].
  rewrite filter_cons. destruct (decide (is_drain e = true)); [congruence|].
  exact IH.
Qed.

Lemma drain_count_app evs1 evs2 :
  drain_count (evs1 ++ evs2) = (drain_count evs1 + drain_count evs2)%nat.
Proof. unfold drain_count. by rewrite filter_app, length_app. Qed.

Lemma one_drain_count evs : one_drain evs -> (drain_count evs <= 1)%nat.
Proof.
  intros [evs' Hq | pre node pods t post Hq Hpost].
  - rewrite quiet_drain_count by assumption. lia.
  - rewrite drain_count_app, (quiet_drain_count pre) by assumption.
    change (EvDrainNode node pods t :: post)
      with ([EvDrainNode node pods t] ++ post).
    rewrite drain_count_app, (quiet_drain_count post)
      by (by apply after_drain_quiet).
    unfold drain_count; simpl. lia.
Qed.

Section Properties.
Context {E S : Type} `{!Cluster E} `{!ClusterSnapshot S}.
Variable cfg : Config.

(** No part of a tick but [drainNode] calls the drain executor. *)

Lemma quiet_buildPodsForDeletion allPods acc (st : St E) :
  quiet (res_evs (buildPodsForDeletion allPods acc st)).
Proof. apply (keeps_buildPodsForDeletion
           (fun _ _ => True) (fun _ e => is_drain e = false)); auto. Qed.

Lemma quiet_canDrainNode (snap : S) nodes pods (st : St E) :
  quiet (res_evs (canDrainNode snap nodes pods st)).
Proof. apply (keeps_canDrainNode
           (fun _ _ => True) (fun _ e => is_drain e = false)); auto. Qed.

Lemma quiet_updateSpotNodeMetrics spot pdbs (st : St E) :
  quiet (res_evs (updateSpotNodeMetrics cfg spot pdbs st)).
Proof. apply (keeps_updateSpotNodeMetrics cfg
           (fun _ _ => True) (fun _ e => is_drain e = false)); auto. Qed.

Lemma quiet_removeTaintFromAllSpotNodes spot (st : St E) :
  quiet (res_evs (removeTaintFromAllSpotNodes cfg spot st)).
Proof. apply (keeps_removeTaintFromAllSpotNodes cfg
           (fun _ _ => True) (fun _ e => is_drain e = false)); auto. Qed.


(** A run of [drainNode]: the executor is called once, its outcome is
    counted and returned. *)
Lemma drainNode_run node pods (st : St E) :
  drainNode node pods st =
  mkRes (Ok (scaler_DrainNode (heap st) node pods (ext st)).1)
        (mkSt (heap st) (scaler_DrainNode (heap st) node pods (ext st)).2)
        [EvDrainNode (node_Name node) pods (clock (ext st));
         EvUpdateNodeDrainCount
           (drainResult (scaler_DrainNode (heap st) node pods (ext st)).1)
           (node_Name node)].
Proof.
  unfold drainNode, bind; simpl.
  destruct (scaler_DrainNode (heap st) node pods (ext st)) as [[er|] e'];
    reflexivity.
Qed.


Lemma tick_run_prefixed next pre (r : Res E Time) :
  quiet pre -> tick_run cfg next r -> tick_run cfg next (prefixed pre r).
Proof.
  intros Hpre [r' Hq Hnext | pre' post node pods st_d Hq Hpost].
  - apply tick_run_quiet; simpl; [|assumption]. apply Forall_app; auto.
  - unfold prefixed; simpl. rewrite app_assoc.
    apply tick_run_drain; [|assumption]. apply Forall_app; auto.
Qed.

Lemma tick_run_bind {A} next (m : M E A) (k : A -> M E Time) (st : St E) :
  quiet (res_evs (m st)) ->
  (forall a, res_out (m st) = Ok a -> tick_run cfg next (k a (res_st (m st)))) ->
  tick_run cfg next (bind m k st).
Proof.
  intros Hq Hk. rewrite bind_run.
  destruct (res_out (m st)) as [a|p].
  - apply tick_run_prefixed; auto.
  - apply tick_run_quiet; simpl; [assumption|discriminate].
Qed.

Lemma tick_run_ret next (st : St E) : tick_run cfg next (ret next st).
Proof.
  apply tick_run_quiet; simpl; [constructor|]. intros ? [= <-]. reflexivity.
Qed.

Ltac tick_run_step :=
  first
    [ apply tick_run_ret
    | apply tick_run_bind;
      [ first [ apply quiet_buildPodsForDeletion
              | apply quiet_canDrainNode
              | apply quiet_updateSpotNodeMetrics
              | apply quiet_removeTaintFromAllSpotNodes
              | solve [repeat constructor]
              | match goal with
                | |- quiet (res_evs (match ?x with _ => _ end _)) =>
                    destruct x; solve [repeat constructor]
                end ]
      | intros ? _ ] ].

Lemma drain_tail_tick_run next node pods (st : St E) :
  tick_run cfg next
    ((err <- drainNode node pods ;;
      match err with
      | Some er => glog SevError (MsgFailedDrain er)
      | None => ret ()
      end ;;;
      e' <- get_ext ;;
      ret (Time_Add (clock e') (nodeDrainDelay cfg))) st).
Proof.
  rewrite bind_run, drainNode_run. simpl.
  destruct (scaler_DrainNode (heap st) node pods (ext st)).1 as [er|];
    unfold prefixed, bind; simpl.
  - apply (tick_run_drain cfg next [] _ node pods st); [constructor|reflexivity].
  - apply (tick_run_drain cfg next [] _ node pods st); [constructor|reflexivity].
Qed.

Lemma drainLoop_tick_run onDemand spot pdbs :
  forall (snap : S) next (st : St E),
    tick_run cfg next (drainLoop cfg onDemand spot pdbs snap next st).
Proof.
  induction onDemand as [|ni rest IH]; intros snap next st; simpl.
  - apply tick_run_ret.
  - do 4 tick_run_step.
    destruct (GetPodsForDeletionOnNodeDrain _ _ _ _ _ _ _).2 as [er|].
    { tick_run_step. apply IH. }
    do 2 tick_run_step.
    destruct (length _ <? 1)%nat.
    { tick_run_step. apply IH. }
    do 3 tick_run_step.
    match goal with
    | |- tick_run _ _ (match ?x with _ => _ end _) => destruct x as [er|]
    end.
    { do 2 tick_run_step. apply IH. }
    tick_run_step. apply drain_tail_tick_run.
Qed.

Lemma tick_run_finish next (m : M E Time) (st : St E) :
  tick_run cfg next (m st) ->
  tick_run cfg next
    ((next' <- m ;; glog (SevV 3) MsgFinishedProcessing ;;; ret next') st).
Proof.
  rewrite bind_run.
  intros [r' Hq Hnext | pre post node pods st_d Hq Hpost].
  - destruct (res_out r') as [a|p] eqn:Hout.
    + apply tick_run_quiet; simpl.
      * apply Forall_app. split; [assumption|repeat constructor].
      * intros ? [= <-]. by apply Hnext.
    + apply tick_run_quiet; simpl; [assumption|discriminate].
  - simpl. unfold prefixed; simpl.
    rewrite <- app_assoc. simpl.
    apply tick_run_drain; [assumption|].
    rewrite forallb_app, Hpost. reflexivity.
Qed.

Lemma tick_tick_run next (st : St E) : tick_run cfg next (tick (S:=S) cfg next st).
Proof.
  unfold tick. tick_run_step.
  destruct (_ >? 0).
  { repeat tick_run_step. }
  do 3 tick_run_step.
  destruct (0 <? _)%nat.
  { repeat tick_run_step. }
  do 3 tick_run_step.
  match goal with
  | |- tick_run _ _ (match ?x with _ => _ end _) => destruct x as [er|]
  end.
  { repeat tick_run_step. }
  do 3 tick_run_step.
  match goal with
  | |- tick_run _ _ (match ?x with _ => _ end _) => destruct x as [er|]
  end.
  { repeat tick_run_step. }
  do 3 tick_run_step.
  match goal with
  | |- tick_run _ _ (match ?x with _ => _ end _) => destruct x as [er|]
  end.
  { repeat tick_run_step. }
  do 5 tick_run_step.
  apply tick_run_finish, drainLoop_tick_run.
Qed.

Lemma tick_run_one_drain next (r : Res E Time) :
  tick_run cfg next r -> one_drain (res_evs r).
Proof.
  intros [r' Hq _ | pre post node pods st_d Hq Hpost]; simpl.
  - by apply one_drain_none.
  - by apply one_drain_once.
Qed.

(** C2: in every tick the drain executor is called at most once, and once
    it was called the tick only counts and logs the outcome of that drain:
    the loop over the on-demand nodes is left, no other node is looked at. *)
Theorem tick_drains_at_most_once next (st : St E) :
  (drain_count (res_evs (tick (S:=S) cfg next st)) <= 1)%nat /\
  drains_once_then_stops (res_evs (tick (S:=S) cfg next st)) = true.
Proof.
  pose proof (tick_run_one_drain _ _ (tick_tick_run next st)) as H.
  split; [by apply one_drain_count|by apply one_drain_stops].
Qed.


Lemma clearNodeName_idemp p : clearNodeName (clearNodeName p) = clearNodeName p.
Proof. reflexivity. Qed.

Lemma findSpotNodeForPod_run (snap : S) nodes pod (st : St E) :
  findSpotNodeForPod snap nodes pod st =
  match nodes, heap st !! pod with
  | [], _ => mkRes (Ok "") st []
  | _ :: _, None => mkRes (Panic NilDereference) st []
  | _ :: _, Some p =>
      mkRes (Ok (firstFit snap (clearNodeName p) nodes))
            (searched nodes pod st)
            (rejections snap (clearNodeName p) nodes)
  end.
Proof.
  revert st. induction nodes as [|ni rest IH]; intros st; [reflexivity|].
  unfold searched. simpl. rewrite bind_run. unfold update.
  destruct (heap st !! pod) as [p|] eqn:Hp; simpl; [|reflexivity].
  rewrite bind_run. unfold deref. simpl.
  rewrite lookup_insert_eq. simpl.
  unfold firstFit, accepts. simpl.
  destruct (CheckPredicates snap (clearNodeName p) (node_Name (ni_Node ni)))
    as [err|] eqn:Hc; simpl; [|reflexivity].
  rewrite bind_run. simpl. rewrite IH. simpl.
  rewrite lookup_insert_eq.
  destruct rest as [|ni' rest']; [reflexivity|].
  unfold searched. simpl. rewrite lookup_insert_eq, insert_insert_eq.
  reflexivity.
Qed.

(** One step of [canDrainNode]. *)
Lemma canDrainNode_step (snap : S) nodes pod rest (st : St E) :
  canDrainNode snap nodes (pod :: rest) st =
  match heap st !! pod with
  | None => mkRes (Panic NilDereference) st []
  | Some p =>
      let p' := clearNodeName p in
      let nodeName := firstFit snap p' nodes in
      if decide (nodeName = "") then
        if decide (annotation p safeToEvictKey = "false") then
          mkRes (Ok (Some (cannotRescheduleError p), snap))
                (searched nodes pod st) (rejections snap p' nodes)
        else
          prefixed (rejections snap p' nodes ++
                    [EvLog (SevV 4) (MsgEvictWithoutSpot (podID p))])
                   (canDrainNode snap nodes rest (searched nodes pod st))
      else
        prefixed (rejections snap p' nodes ++
                  [EvLog (SevV 4) (MsgAddingToPlan (podID p) nodeName);
                   EvAddPod pod nodeName])
                 (canDrainNode (AddPod snap p' nodeName) nodes rest
                               (searched nodes pod st))
  end.
Proof.
  simpl. rewrite bind_run, findSpotNodeForPod_run.
  destruct nodes as [|ni nodes'].
  - simpl. unfold searched. rewrite prefixed_nil.
    rewrite bind_run. unfold deref.
    destruct (heap st !! pod) as [p|] eqn:Hp; simpl; [|reflexivity].
    unfold firstFit. simpl.
    destruct (decide (annotation p safeToEvictKey = "false")); [reflexivity|].
    rewrite bind_run. simpl. reflexivity.
  - unfold searched.
    destruct (heap st !! pod) as [p|] eqn:Hp; simpl; [|reflexivity].
    set (nodeName := firstFit snap (clearNodeName p) (ni :: nodes')).
    set (evs := rejections snap (clearNodeName p) (ni :: nodes')).
    rewrite bind_run. unfold deref. simpl. rewrite lookup_insert_eq. simpl.
    destruct (decide (nodeName = "")).
    + change (annotation (clearNodeName p) safeToEvictKey)
        with (annotation p safeToEvictKey).
      destruct (decide (annotation p safeToEvictKey = "false")).
      * unfold prefixed; simpl. by rewrite !app_nil_r.
      * rewrite bind_run. simpl. rewrite !prefixed_app. simpl.
        rewrite app_nil_r. reflexivity.
    + rewrite !bind_run. simpl. rewrite !prefixed_app. simpl.
      rewrite app_nil_r, <- app_assoc. reflexivity.
Qed.

Lemma find_first {A} (f : A -> bool) (l : list A) :
  match find f l with
  | Some x =>
      exists before after,
        l = before ++ x :: after /\
        Forall (fun y => f y = false) before /\ f x = true
  | None => Forall (fun y => f y = false) l
  end.
Proof.
  induction l as [|a l IH]; simpl; [constructor|].
  destruct (f a) eqn:Ha.
  - exists [], l. repeat split; [constructor|assumption].
  - destruct (find f l) as [x|].
    + destruct IH as (before & after & -> & Hb & Hx).
      exists (a :: before), after. repeat split; [constructor|]; assumption.
    + constructor; assumption.
Qed.

Lemma firstFit_none (snap : S) pod nodes :
  Forall (fun ni => accepts snap pod ni = false) nodes ->
  firstFit snap pod nodes = "".
Proof.
  intros H. unfold firstFit.
  pose proof (find_first (accepts snap pod) nodes) as Hf.
  destruct (find (accepts snap pod) nodes) as [ni|]; [|reflexivity].
  destruct Hf as (before & after & -> & _ & Hni).
  apply Forall_app in H as [_ H]. apply Forall_cons in H as [H _].
  congruence.
Qed.

(** C4: the planner takes the pods in the order given; each goes to the
    first spot node of the sequence whose predicates accept it (with its
    node name cleared), and when a node is found the pod is added to the
    snapshot on that node before the next pod is looked at, so that the
    rest of the pods are checked against the snapshot with the pod in it. *)
Theorem planner_first_fit_accumulates (snap : S) nodes pod rest (st : St E) p :
  heap st !! pod = Some p ->
  let p' := clearNodeName p in
  let nodeName := firstFit snap p' nodes in
  res_out (findSpotNodeForPod snap nodes pod st) = Ok nodeName /\
  ((exists before chosen after,
      nodes = before ++ chosen :: after /\
      Forall (fun ni => accepts snap p' ni = false) before /\
      accepts snap p' chosen = true /\
      nodeName = node_Name (ni_Node chosen)) \/
   (Forall (fun ni => accepts snap p' ni = false) nodes /\ nodeName = "")) /\
  canDrainNode snap nodes (pod :: rest) st =
    if decide (nodeName = "") then
      if decide (annotation p safeToEvictKey = "false") then
        mkRes (Ok (Some (cannotRescheduleError p), snap))
              (searched nodes pod st) (rejections snap p' nodes)
      else
        prefixed (rejections snap p' nodes ++
                  [EvLog (SevV 4) (MsgEvictWithoutSpot (podID p))])
                 (canDrainNode snap nodes rest (searched nodes pod st))
    else
      prefixed (rejections snap p' nodes ++
                [EvLog (SevV 4) (MsgAddingToPlan (podID p) nodeName);
                 EvAddPod pod nodeName])
               (canDrainNode (AddPod snap p' nodeName) nodes rest
                             (searched nodes pod st)).
Proof.
  intros Hp p' nodeName. split; [|split].
  - rewrite findSpotNodeForPod_run, Hp.
    destruct nodes; reflexivity.
  - unfold nodeName, firstFit.
    pose proof (find_first (accepts snap p') nodes) as Hf.
    destruct (find (accepts snap p') nodes) as [ni|].
    + left. destruct Hf as (before & after & Hn & Hb & Hni).
      exists before, ni, after. auto.
    + right. auto.
  - rewrite canDrainNode_step, Hp. reflexivity.
Qed.

(** Pods placed one after the other. *)
Lemma prefixed_inv {A} evs (r : Res E A) out st' evs' :
  prefixed evs r = mkRes out st' evs' ->
  r = mkRes out st' (res_evs r) /\ evs' = evs ++ res_evs r.
Proof. destruct r; unfold prefixed; simpl. intros [= -> -> <-]. auto. Qed.

Lemma canDrainNode_app nodes pre pods : forall (snap snap1 : S) (st st1 : St E) evs1,
  canDrainNode snap nodes pre st = mkRes (Ok (None, snap1)) st1 evs1 ->
  canDrainNode snap nodes (pre ++ pods) st =
  prefixed evs1 (canDrainNode snap1 nodes pods st1).
Proof.
  induction pre as [|pod pre IH]; intros snap snap1 st st1 evs1 H.
  - simpl in H. injection H as <- <- <-. simpl. by rewrite prefixed_nil.
  - rewrite <- app_comm_cons. rewrite canDrainNode_step in H |- *.
    destruct (heap st !! pod) as [p|]; [|discriminate].
    simpl in H |- *.
    destruct (decide (firstFit snap (clearNodeName p) nodes = "")).
    + destruct (decide (annotation p safeToEvictKey = "false"));
        [discriminate|].
      apply prefixed_inv in H as [H ->].
      rewrite (IH _ _ _ _ _ H). by rewrite prefixed_app.
    + apply prefixed_inv in H as [H ->].
      rewrite (IH _ _ _ _ _ H). by rewrite prefixed_app.
Qed.

Lemma blockingPod_log_run (blocking : option BlockingPod) (err : option Err)
    (st : St E) :
  res_out (match blocking with
           | Some _ => glog SevInfo (MsgBlockingPod err)
           | None => ret ()
           end st) = Ok tt /\
  res_st (match blocking with
          | Some _ => glog SevInfo (MsgBlockingPod err)
          | None => ret ()
          end st) = st.
Proof. destruct blocking; split; reflexivity. Qed.

(** When the planner fails for a node, the loop reverts the snapshot and
    goes on with the next node; the drain executor is not called. *)
Lemma drainLoop_planner_error ni rest spot pdbs (snap snap' : S) next
    (st st_b st_c : St E) pods evs_b er evs_c :
  (GetPodsForDeletionOnNodeDrain (heap st) (ni_Pods ni) pdbs
     (deleteNonReplicatedPods cfg) false false (clock (ext st))).2 = None ->
  buildPodsForDeletion
    (GetPodsForDeletionOnNodeDrain (heap st) (ni_Pods ni) pdbs
       (deleteNonReplicatedPods cfg) false false (clock (ext st))).1.1 [] st
  = mkRes (Ok pods) st_b evs_b ->
  (length pods <? 1)%nat = false ->
  canDrainNode (Fork snap) spot pods st_b = mkRes (Ok (Some er, snap')) st_c evs_c ->
  exists evs,
    quiet evs /\
    drainLoop cfg (ni :: rest) spot pdbs snap next st =
    prefixed evs (drainLoop cfg rest spot pdbs (Revert snap') next st_c).
Proof.
  intros Herr Hb Hlen Hplan.
  pose proof (quiet_buildPodsForDeletion
                (GetPodsForDeletionOnNodeDrain (heap st) (ni_Pods ni) pdbs
                   (deleteNonReplicatedPods cfg) false false
                   (clock (ext st))).1.1 [] st) as Hqb.
  pose proof (quiet_canDrainNode (Fork snap) spot pods st_b) as Hqc.
  rewrite Hb in Hqb. rewrite Hplan in Hqc. simpl in Hqb, Hqc.
  simpl. do 3 (rewrite bind_run; simpl).
  destruct (GetPodsForDeletionOnNodeDrain _ _ _ _ _ _ _)
    as [[allPods blocking] err].
  simpl in *. subst err.
  rewrite bind_run.
  destruct (blockingPod_log_run blocking None st) as [-> ->].
  rewrite bind_run, Hb. simpl. rewrite bind_run. simpl. rewrite Hlen.
  do 3 (rewrite bind_run; simpl). rewrite Hplan. simpl.
  do 2 (rewrite bind_run; simpl). rewrite !prefixed_app.
  eexists. split; [|reflexivity].
  repeat (apply Forall_app; split); try assumption;
    try (destruct blocking); repeat constructor.
Qed.

(** C1, as the program has it: a movable pod annotated
    [safe-to-evict=false] aborts the planner when, at its turn, no spot
    node accepts it on the snapshot with the pods before it placed; the
    node is then not drained: the loop reverts the snapshot and goes on
    with the next on-demand node. *)
Theorem blocker_without_spot_not_drained ni rest spot pdbs (snap snap1 : S)
    next (st st_b st1 : St E) before pod after evs_b evs1 p :
  (GetPodsForDeletionOnNodeDrain (heap st) (ni_Pods ni) pdbs
     (deleteNonReplicatedPods cfg) false false (clock (ext st))).2 = None ->
  buildPodsForDeletion
    (GetPodsForDeletionOnNodeDrain (heap st) (ni_Pods ni) pdbs
       (deleteNonReplicatedPods cfg) false false (clock (ext st))).1.1 [] st
  = mkRes (Ok (before ++ pod :: after)) st_b evs_b ->
  canDrainNode (Fork snap) spot before st_b = mkRes (Ok (None, snap1)) st1 evs1 ->
  heap st1 !! pod = Some p ->
  annotation p safeToEvictKey = "false" ->
  Forall (fun nodeInfo => accepts snap1 (clearNodeName p) nodeInfo = false) spot ->
  exists st2 evs2 evs,
    canDrainNode (Fork snap) spot (before ++ pod :: after) st_b =
      mkRes (Ok (Some (cannotRescheduleError p), snap1)) st2 evs2 /\
    quiet evs /\
    drainLoop cfg (ni :: rest) spot pdbs snap next st =
      prefixed evs (drainLoop cfg rest spot pdbs (Revert snap1) next st2).
Proof.
  intros Herr Hb Hpre Hp Hann Hnone.
  assert (Hplan : canDrainNode (Fork snap) spot (before ++ pod :: after) st_b =
                  mkRes (Ok (Some (cannotRescheduleError p), snap1))
                        (searched spot pod st1)
                        (evs1 ++ rejections snap1 (clearNodeName p) spot)).
  { rewrite (canDrainNode_app _ _ _ _ _ _ _ _ Hpre), canDrainNode_step, Hp.
    simpl. rewrite (firstFit_none _ _ _ Hnone).
    destruct (decide ("" = "")); [|congruence].
    destruct (decide (annotation p safeToEvictKey = "false")); [|congruence].
    reflexivity. }
  assert (Hlen : (length (before ++ pod :: after) <? 1)%nat = false).
  { rewrite length_app. simpl. apply Nat.ltb_ge. lia. }
  destruct (drainLoop_planner_error ni rest spot pdbs snap snap1 next st st_b
              _ _ evs_b _ _ Herr Hb Hlen Hplan) as (evs & Hq & Hloop).
  eauto 6.
Qed.

(** *** The planner writes to the pods it is given *)


(** *** Backpressure *)

(** C7: when the listing of unschedulable pods is reached and returns a
    pod, the tick logs (the error too, if there is one) and returns: no
    listing of nodes, no node map, no metrics, no taint update, no drain,
    and [nextDrainTime] is as before. *)
Theorem tick_backpressure next (st : St E) :
  (Time_Sub next (clock (ext st)) >? 0) = false ->
  (0 < length (unschedulablePodLister_List (ext st)).1.1)%nat ->
  tick (S:=S) cfg next st =
  mkRes (Ok next)
        (mkSt (heap st) (unschedulablePodLister_List (ext st)).2)
        (EvListUnschedulablePods ::
         match (unschedulablePodLister_List (ext st)).1.2 with
         | Some er => [EvLog SevError (MsgFailedUnschedulable er)]
         | None => []
         end ++ [EvLog (SevV 2) MsgWaitingUnschedulable]).
Proof.
  intros Hgate Hlen. unfold tick.
  rewrite bind_run. simpl. rewrite Hgate.
  do 3 (rewrite bind_run; simpl).
  destruct (unschedulablePodLister_List (ext st)) as [[unsched uerr] e1].
  simpl in *.
  apply Nat.ltb_lt in Hlen.
  destruct uerr as [er|]; simpl; rewrite Hlen; reflexivity.
Qed.

(** A failed listing that returns no pod does not end the tick: the error
    is logged and the nodes are listed next. *)
Lemma tick_goes_on_after_list_error next (st : St E) er :
  (Time_Sub next (clock (ext st)) >? 0) = false ->
  (unschedulablePodLister_List (ext st)).1 = ([], Some er) ->
  exists evs,
    res_evs (tick (S:=S) cfg next st) =
    [EvListUnschedulablePods;
     EvLog SevError (MsgFailedUnschedulable er);
     EvLog (SevV 3) MsgStartingNodeProcessing;
     EvListNodes] ++ evs.
Proof.
  intros Hgate Hlist. unfold tick.
  rewrite bind_evs. simpl. rewrite Hgate.
  do 2 (rewrite bind_evs; simpl). rewrite Hlist. simpl.
  repeat (rewrite bind_evs; simpl). eauto.
Qed.

(** *** The cooldown *)



Lemma tick_drains_after_start (Hmono : clock_monotone (E:=E)) next (st : St E) :
  Forall (started_from (clock (ext st))) (res_evs (tick (S:=S) cfg next st)).
Proof.
  apply (keeps_tick cfg
           (fun st1 st2 => clock (ext st1) <= clock (ext st2))
           (fun st1 => started_from (clock (ext st1)))).
  - intros; lia.
  - intros; lia.
  - intros st1 st2 [] H1 H2; simpl in *; auto; lia.
  - intros st1 []; simpl; auto; discriminate.
  - intros; simpl; lia.
  - intros; simpl; apply Hmono.
  - intros; simpl; apply Hmono.
  - intros; simpl; apply Hmono.
  - intros; simpl; apply Hmono.
  - intros; simpl; apply Hmono.
  - intros; simpl; apply Hmono.
  - intros; simpl; lia.
Qed.

Lemma tick_waiting next (st : St E) :
  (Time_Sub next (clock (ext st)) >? 0) = true ->
  tick (S:=S) cfg next st =
  mkRes (Ok next) st
        [EvLog (SevV 2)
               (MsgWaitingDrainDelay
                  (Duration_Round (Time_Sub next (clock (ext st))) Second))].
Proof.
  intros Hgate. unfold tick. rewrite bind_run. simpl. rewrite Hgate.
  reflexivity.
Qed.

Lemma Time_Sub_not_pos t u : (Time_Sub t u >? 0) = false -> t <= u.
Proof.
  unfold Time_Sub, minDuration, maxDuration. intros H.
  rewrite Z.gtb_ltb in H. apply Z.ltb_ge in H.
  change (2 ^ 63) with 9223372036854775808 in H. lia.
Qed.

Lemma quiet_no_drain evs node pods t :
  quiet evs -> In (EvDrainNode node pods t) evs -> False.
Proof.
  unfold quiet. rewrite Forall_forall. intros Hq Hin.
  apply list_elem_of_In in Hin. specialize (Hq _ Hin). discriminate.
Qed.

Lemma tick_cooldown (Hmono : clock_monotone (E:=E)) next (st : St E)
    node pods t :
  In (EvDrainNode node pods t) (res_evs (tick (S:=S) cfg next st)) ->
  next <= t /\
  exists next',
    res_out (tick (S:=S) cfg next st) = Ok next' /\
    t + nodeDrainDelay cfg <= next'.
Proof.
  intros Hin. split.
  - destruct (Time_Sub next (clock (ext st)) >? 0) eqn:Hgate.
    + rewrite tick_waiting in Hin by assumption. simpl in Hin.
      destruct Hin as [Hin|[]]. discriminate.
    + apply Time_Sub_not_pos in Hgate.
      pose proof (tick_drains_after_start Hmono next st) as Hall.
      rewrite Forall_forall in Hall. apply list_elem_of_In in Hin.
      specialize (Hall _ Hin). simpl in Hall. lia.
  - pose proof (tick_tick_run next st) as Hrun.
    remember (tick (S:=S) cfg next st) as r eqn:Hr. clear Hr.
    destruct Hrun as [r Hq _ | pre post node' pods' st_d Hq Hpost].
    + exfalso. eapply quiet_no_drain; eauto.
    + simpl in *. eexists. split; [reflexivity|].
      apply in_app_or in Hin as [Hin | [Hin | Hin]].
      * exfalso. eapply quiet_no_drain; eauto.
      * injection Hin as _ _ <-. unfold Time_Add.
        pose proof (mono_drain Hmono (heap st_d) node' pods' (ext st_d)). lia.
      * exfalso. apply after_drain_quiet in Hpost.
        eapply quiet_no_drain; eauto.
Qed.

(** C3: a tick that calls the drain executor at [t] does so at or after
    the [nextDrainTime] it started with, and returns, whatever the executor
    answers, a [nextDrainTime] of at least [t] plus [nodeDrainDelay]: the
    next call of the executor is at least that late. *)
Theorem cooldown_armed_after_drain (Hmono : clock_monotone (E:=E)) next (st : St E)
    node pods t :
  In (EvDrainNode node pods t) (res_evs (tick (S:=S) cfg next st)) ->
  next <= t /\
  exists next',
    res_out (tick (S:=S) cfg next st) = Ok next' /\
    t + nodeDrainDelay cfg <= next'.
Proof. apply tick_cooldown, Hmono. Qed.

(** *** The whole run *)

Lemma drains_spaced_quiet delay lower pre evs :
  quiet pre ->
  drains_spaced delay lower (pre ++ evs) <-> drains_spaced delay lower evs.
Proof.
  induction 1 as [|e pre He _ IH]; simpl; [reflexivity|].
  destruct e; try discriminate; exact IH.
Qed.

Lemma drains_spaced_mono delay lower lower' evs :
  lower <= lower' ->
  drains_spaced delay lower' evs -> drains_spaced delay lower evs.
Proof.
  intros Hle. induction evs as [|e evs IH]; simpl; [auto|].
  destruct e; auto. intros [Ht Hrest]. split; [lia|exact Hrest].
Qed.

(** A tick followed by a trace whose drains respect the [nextDrainTime]
    the tick returns. *)
Lemma tick_then_spaced (Hmono : clock_monotone (E:=E)) next (st : St E)
    (evs : Time -> list Event) :
  (forall next', res_out (tick (S:=S) cfg next st) = Ok next' ->
                 drains_spaced (nodeDrainDelay cfg) next' (evs next')) ->
  drains_spaced (nodeDrainDelay cfg) next
    (res_evs (tick (S:=S) cfg next st) ++
     match res_out (tick (S:=S) cfg next st) with
     | Ok next' => evs next'
     | Panic _ => []
     end).
Proof.
  pose proof (tick_tick_run next st) as Hrun.
  pose proof (fun node pods t => tick_cooldown Hmono next st node pods t)
    as Hcool.
  remember (tick (S:=S) cfg next st) as r eqn:Hr. clear Hr.
  destruct Hrun as [r Hq Hnext | pre post node pods st_d Hq Hpost];
    intros Hevs.
  - apply drains_spaced_quiet; [assumption|].
    destruct (res_out r) as [next'|]; [|exact I].
    rewrite <- (Hnext next' eq_refl). by apply Hevs.
  - simpl in *. rewrite <- app_assoc. apply drains_spaced_quiet; [assumption|].
    simpl.
    destruct (Hcool (node_Name node) pods (clock (ext st_d)))
      as (Hle & next' & [= <-] & Hnext).
    { apply in_or_app. right. left. reflexivity. }
    split; [exact Hle|].
    apply drains_spaced_quiet; [by apply after_drain_quiet|].
    eapply drains_spaced_mono; [exact Hnext|]. by apply Hevs.
Qed.

(** X1: over any number of ticks, no drain starts before the [nextDrainTime]
    the run started with, and each drain starts at least [nodeDrainDelay]
    after the one before. *)
Theorem run_ticks_drains_spaced (Hmono : clock_monotone (E:=E)) ticks :
  forall next (st : St E),
    drains_spaced (nodeDrainDelay cfg) next
      (res_evs (run_ticks (S:=S) cfg ticks next st)).
Proof.
  induction ticks as [|ticks IH]; intros next st; [exact I|].
  cbn [run_ticks]. rewrite bind_evs. simpl.
  rewrite bind_evs.
  match goal with
  | |- drains_spaced _ _ (res_evs (tick _ _ ?st1) ++ _) =>
      apply (tick_then_spaced Hmono next st1
               (fun a => res_evs (run_ticks (S:=S) cfg ticks a
                                    (res_st (tick (S:=S) cfg next st1)))))
  end.
  intros next' _. apply IH.
Qed.

End Properties.




(** ** The daemon-set exclusion *)

Section DaemonSets.
Context {E : Type}.

Lemma controlledByDaemonSet_total owners :
  Forall (fun owner => owner_Controller owner <> None) owners ->
  controlledByDaemonSet owners = Ok (existsb isDaemonSetController owners).
Proof.
  induction 1 as [|owner rest Ho _ IH]; simpl; [reflexivity|].
  unfold isDaemonSetController at 1.
  destruct (owner_Controller owner) as [c|]; [|congruence].
  destruct (c && bool_decide (owner_Kind owner = "DaemonSet")); simpl;
    [reflexivity|exact IH].
Qed.

(** X10: the exclusion panics exactly when an owner reference with a nil
    [Controller] comes before any daemon-set controller. *)
Lemma controlledByDaemonSet_panics owners :
  controlledByDaemonSet owners = Panic NilDereference <->
  exists before owner after,
    owners = before ++ owner :: after /\
    owner_Controller owner = None /\
    Forall (fun o => owner_Controller o <> None /\
                     isDaemonSetController o = false) before.
Proof.
  induction owners as [|o rest IH]; simpl.
  - split; [discriminate|]. intros (before & owner & after & H & _).
    destruct before; discriminate.
  - destruct (owner_Controller o) as [c|] eqn:Hc.
    + destruct (c && bool_decide (owner_Kind o = "DaemonSet")) eqn:Hds.
      * split; [discriminate|].
        intros ([|o' before] & owner & after & H & Hnil & Hb);
          injection H as <- ->; [congruence|].
        apply Forall_cons in Hb as [[_ Hb] _].
        unfold isDaemonSetController in Hb. rewrite Hc in Hb. congruence.
      * rewrite IH. split.
        -- intros (before & owner & after & -> & Hnil & Hb).
           exists (o :: before), owner, after. repeat split; [assumption|].
           constructor; [|assumption]. split; [congruence|].
           unfold isDaemonSetController. by rewrite Hc.
        -- intros ([|o' before] & owner & after & H & Hnil & Hb);
             injection H as <- ->; [congruence|].
           apply Forall_cons in Hb as [_ Hb]. eauto 6.
    + split; [|reflexivity]. intros _.
      exists [], o, rest. repeat split; [assumption|constructor].
Qed.

(** With [Controller] set on every owner reference of every pod, the loop
    of [run] keeps exactly the pods no daemon set controls, in their order,
    and writes nothing. *)
Lemma buildPodsForDeletion_total allPods : forall acc (st : St E),
  Forall (controllersSet (heap st)) allPods ->
  res_out (buildPodsForDeletion allPods acc st) =
    Ok (acc ++ List.filter (fun pod => negb (ownedByDaemonSet (heap st) pod))
                           allPods) /\
  res_st (buildPodsForDeletion allPods acc st) = st.
Proof.
  induction allPods as [|pod rest IH]; intros acc st Hall.
  - simpl. by rewrite app_nil_r.
  - apply Forall_cons in Hall as [(p & Hp & Hown) Hall].
    cbn [buildPodsForDeletion List.filter].
    rewrite bind_run. unfold deref. rewrite Hp. simpl.
    rewrite (controlledByDaemonSet_total _ Hown). simpl.
    unfold ownedByDaemonSet at 1 3. rewrite Hp.
    destruct (existsb isDaemonSetController (pod_OwnerReferences p)); simpl.
    + apply (IH acc st Hall).
    + destruct (IH (acc ++ [pod]) st Hall) as [-> ->].
      by rewrite <- app_assoc.
Qed.

End DaemonSets.

(** ** The taint reconciler *)

Section Taints.
Context {E : Type} `{!Cluster E}.
Variable cfg : Config.

(** A taint without the key is passed over. *)
Lemma removeTaint_range_other name i rest arr n taint (st : St E) :
  arr !! i = Some taint -> taint_Key taint <> spotTaintToBeRemoved cfg ->
  removeTaint_range cfg name (i :: rest) arr n st =
  removeTaint_range cfg name rest arr n st.
Proof.
  intros Hi Hk. cbn [removeTaint_range]. rewrite Hi.
  destruct (decide (taint_Key taint = spotTaintToBeRemoved cfg)); [congruence|reflexivity].
Qed.

(** A taint with the key, at an index within the slice: the last taint
    takes its place, the slice loses its last index, the node is updated. *)
Lemma removeTaint_range_match name i rest arr n0 taint last (st : St E) :
  arr !! i = Some taint -> taint_Key taint = spotTaintToBeRemoved cfg ->
  arr !! n0 = Some last -> (i < Datatypes.S n0)%nat ->
  removeTaint_range cfg name (i :: rest) arr (Datatypes.S n0) st =
  prefixed
    [EvNodeUpdate (mkNode name (take n0 (<[i := last]> arr)));
     updateLog name
       (Nodes_Update (mkNode name (take n0 (<[i := last]> arr))) (ext st)).1]
    (removeTaint_range cfg name rest (<[i := last]> arr) n0
       (mkSt (heap st)
             (Nodes_Update (mkNode name (take n0 (<[i := last]> arr)))
                           (ext st)).2)).
Proof.
  intros Hi Hk Hlast Hlt. cbn [removeTaint_range]. rewrite Hi, Hlast.
  destruct (decide (taint_Key taint = spotTaintToBeRemoved cfg)); [|congruence].
  destruct (decide (i < Datatypes.S n0)%nat); [|lia].
  do 3 (rewrite bind_run; simpl).
  unfold updateLog.
  destruct (Nodes_Update _ _) as [[[updated|] [er|]] e']; simpl;
    rewrite !prefixed_app; reflexivity.
Qed.

(** A taint with the key, at an index that is not within the slice. *)
Lemma removeTaint_range_out name i rest arr n taint (st : St E) :
  arr !! i = Some taint -> taint_Key taint = spotTaintToBeRemoved cfg -> (n <= i)%nat ->
  exists index len,
    removeTaint_range cfg name (i :: rest) arr n st =
    mkRes (Panic (IndexOutOfRange index len)) st [].
Proof.
  intros Hi Hk Hle. cbn [removeTaint_range]. rewrite Hi.
  destruct (decide (taint_Key taint = spotTaintToBeRemoved cfg)); [|congruence].
  destruct n as [|n0]; [eauto|].
  destruct (arr !! n0); [|eauto].
  destruct (decide (i < Datatypes.S n0)%nat); [lia|eauto].
Qed.

(** Once a taint with the key lies at an index the loop has yet to reach
    and the slice no longer has, the loop panics. *)
Lemma removeTaint_range_doomed name k : forall i arr n (st : St E) j taint,
  length arr = (i + k)%nat ->
  (i <= j)%nat -> (n <= j)%nat ->
  arr !! j = Some taint -> taint_Key taint = spotTaintToBeRemoved cfg ->
  exists index len,
    res_out (removeTaint_range cfg name (seq i k) arr n st) =
    Panic (IndexOutOfRange index len).
Proof.
  induction k as [|k IH]; intros i arr n st j taint Hlen Hij Hnj Hj Hk.
  - apply lookup_lt_Some in Hj. lia.
  - cbn [seq].
    destruct (arr !! i) as [ti|] eqn:Hi.
    2:{ apply lookup_ge_None in Hi. lia. }
    destruct (decide (taint_Key ti = spotTaintToBeRemoved cfg)) as [Hti|Hti].
    + destruct (decide (i < n)%nat) as [Hin|Hin].
      * destruct n as [|n0]; [lia|].
        destruct (arr !! n0) as [last|] eqn:Hlast.
        2:{ cbn [removeTaint_range]. rewrite Hi, Hlast.
            destruct (decide (taint_Key ti = spotTaintToBeRemoved cfg)); [|congruence]. eauto. }
        rewrite (removeTaint_range_match _ _ _ _ _ _ _ _ Hi Hti Hlast Hin).
        simpl. eapply (IH (Datatypes.S i) _ n0 _ j taint); try lia.
        -- rewrite length_insert. lia.
        -- rewrite list_lookup_insert_ne by lia. exact Hj.
        -- exact Hk.
      * destruct (removeTaint_range_out name i (seq (Datatypes.S i) k) arr n
                    ti st Hi Hti) as (index & len & ->); [lia|]. eauto.
    + rewrite (removeTaint_range_other _ _ _ _ _ _ _ Hi Hti).
      assert (i <> j) by (intros ->; congruence).
      eapply (IH (Datatypes.S i) arr n st j taint); try lia; assumption.
Qed.

(** The taints without the key that the slice holds are the same, up to
    their order, before and after a removal. *)
Lemma removal_keeps_others (arr : list Taint) i n0 taint last :
  arr !! i = Some taint -> taint_Key taint = spotTaintToBeRemoved cfg ->
  arr !! n0 = Some last -> (i <= n0)%nat ->
  filter (fun t => taint_Key t <> spotTaintToBeRemoved cfg) (take n0 (<[i := last]> arr)) ≡ₚ
  filter (fun t => taint_Key t <> spotTaintToBeRemoved cfg) (take (Datatypes.S n0) arr).
Proof.
  intros Hi Hk Hlast Hle.
  rewrite (take_S_r _ _ _ Hlast), filter_app.
  destruct (decide (i = n0)) as [->|Hne].
  - rewrite take_insert_ge by lia.
    assert (last = taint) as -> by congruence.
    rewrite (filter_cons_False _ taint) by (intros H; by apply H).
    by rewrite filter_nil, app_nil_r.
  - rewrite take_insert_lt by lia.
    assert (Hti : take n0 arr !! i = Some taint)
      by (rewrite lookup_take_lt by lia; exact Hi).
    rewrite insert_take_drop by (apply lookup_lt_Some in Hti; exact Hti).
    rewrite <- (take_drop_middle _ _ _ Hti) at 3.
    rewrite !filter_app.
    rewrite (filter_cons_False _ taint) by (intros H; by apply H).
    change (last :: drop (Datatypes.S i) (take n0 arr))
      with ([last] ++ drop (Datatypes.S i) (take n0 arr)).
    rewrite filter_app, <- !app_assoc.
    apply Permutation_app_head, Permutation_app_comm.
Qed.

(** A loop that returns has removed every taint with the key from the
    slice and kept the others. *)
Lemma removeTaint_range_ok name k : forall i arr n (st : St E) arr' n',
  length arr = (i + k)%nat -> (n <= length arr)%nat ->
  (forall j t, (j < i)%nat -> (j < n)%nat ->
               arr !! j = Some t -> taint_Key t <> spotTaintToBeRemoved cfg) ->
  res_out (removeTaint_range cfg name (seq i k) arr n st) = Ok (arr', n') ->
  (forall j t, (j < n')%nat -> arr' !! j = Some t -> taint_Key t <> spotTaintToBeRemoved cfg) /\
  filter (fun t => taint_Key t <> spotTaintToBeRemoved cfg) (take n' arr') ≡ₚ
  filter (fun t => taint_Key t <> spotTaintToBeRemoved cfg) (take n arr).
Proof.
  induction k as [|k IH]; intros i arr n st arr' n' Hlen Hn Hclean Hok.
  - simpl in Hok. injection Hok as <- <-. split; [|reflexivity].
    intros j t Hj. apply Hclean; lia.
  - cbn [seq] in Hok.
    destruct (arr !! i) as [ti|] eqn:Hi.
    2:{ apply lookup_ge_None in Hi. lia. }
    destruct (decide (taint_Key ti = spotTaintToBeRemoved cfg)) as [Hti|Hti].
    + destruct (decide (i < n)%nat) as [Hin|Hin].
      2:{ destruct (removeTaint_range_out name i (seq (Datatypes.S i) k) arr n
                      ti st Hi Hti) as (index & len & Hp); [lia|].
          rewrite Hp in Hok. discriminate. }
      destruct n as [|n0]; [lia|].
      destruct (arr !! n0) as [last|] eqn:Hlast.
      2:{ apply lookup_ge_None in Hlast. lia. }
      rewrite (removeTaint_range_match _ _ _ _ _ _ _ _ Hi Hti Hlast Hin) in Hok.
      simpl in Hok.
      apply IH in Hok as [Hclean' Hperm].
      * split; [exact Hclean'|].
        rewrite Hperm. apply (removal_keeps_others arr i n0 ti last); auto; lia.
      * rewrite length_insert. lia.
      * rewrite length_insert. lia.
      * intros j t Hj Hjn Hjt.
        destruct (decide (j = i)) as [->|Hne].
        -- rewrite list_lookup_insert_eq in Hjt by lia.
           injection Hjt as <-. intros Hlk.
           destruct (removeTaint_range_doomed name k (Datatypes.S i)
                       (<[i := last]> arr) n0
                       (mkSt (heap st)
                          (Nodes_Update
                             (mkNode name (take n0 (<[i := last]> arr)))
                             (ext st)).2)
                       n0 last) as (index & len & Hp); try lia.
           ++ rewrite length_insert. lia.
           ++ rewrite list_lookup_insert_ne by lia. exact Hlast.
           ++ exact Hlk.
           ++ rewrite Hp in Hok. discriminate.
        -- rewrite list_lookup_insert_ne in Hjt by lia.
           apply (Hclean j t); try lia. exact Hjt.
    + rewrite (removeTaint_range_other _ _ _ _ _ _ _ Hi Hti) in Hok.
      apply IH in Hok; [exact Hok|lia|lia|].
      intros j t Hj Hjn Hjt.
      destruct (decide (j = i)) as [->|Hne]; [congruence|].
      apply (Hclean j t); try lia. exact Hjt.
Qed.

Lemma filter_all {A} (P : A -> Prop) `{forall x, Decision (P x)} (l : list A) :
  Forall P l -> filter P l = l.
Proof.
  induction 1 as [|x l Hx _ IH]; [reflexivity|].
  rewrite filter_cons_True by assumption. by rewrite IH.
Qed.

(** A node the loop returns from has lost every taint with the key and
    kept the others; nothing else of the node is written. *)
Lemma removeTaint_node_ok nodeInfo nodeInfo' (st : St E) :
  res_out (removeTaint_node cfg nodeInfo st) = Ok nodeInfo' ->
  reconciled (spotTaintToBeRemoved cfg) nodeInfo nodeInfo'.
Proof.
  unfold removeTaint_node, reconciled. rewrite bind_run.
  destruct (res_out (removeTaint_range _ _ _ _ _ _)) as [[arr' n']|] eqn:Hok;
    [|discriminate].
  simpl. intros [= <-]. simpl.
  apply removeTaint_range_ok in Hok as [Hclean Hperm];
    [|reflexivity|lia|intros; lia].
  assert (Hall : Forall (fun t => taint_Key t <> spotTaintToBeRemoved cfg) (take n' arr')).
  { apply Forall_lookup. intros j t Hj.
    apply lookup_take_Some in Hj as [Hj Hlt]. by apply (Hclean j t). }
  repeat split; [exact Hall|].
  rewrite <- (filter_all _ _ Hall), Hperm.
  by rewrite take_ge by lia.
Qed.

(** Where no taint of the indices has the key, the loop writes nothing and
    calls nothing. *)
Lemma removeTaint_range_clean name idxs arr n (st : St E) :
  Forall (fun i => exists t, arr !! i = Some t /\ taint_Key t <> spotTaintToBeRemoved cfg) idxs ->
  removeTaint_range cfg name idxs arr n st = mkRes (Ok (arr, n)) st [].
Proof.
  induction 1 as [|i rest (t & Hi & Ht) _ IH]; [reflexivity|].
  by rewrite (removeTaint_range_other _ _ _ _ _ _ _ Hi Ht).
Qed.

(** X17: a node without a taint of the key is left as it is, with no
    update and no log line. *)
Lemma removeTaint_node_clean nodeInfo (st : St E) :
  Forall (fun t => taint_Key t <> spotTaintToBeRemoved cfg) (node_Taints (ni_Node nodeInfo)) ->
  removeTaint_node cfg nodeInfo st = mkRes (Ok nodeInfo) st [].
Proof.
  intros Hall. unfold removeTaint_node. rewrite bind_run.
  rewrite removeTaint_range_clean.
  - simpl. rewrite take_ge by lia.
    destruct nodeInfo as [[name taints] pods]. reflexivity.
  - apply Forall_forall. intros i Hi. apply elem_of_seq in Hi.
    destruct (lookup_lt_is_Some_2 (node_Taints (ni_Node nodeInfo)) i)
      as [t Ht]; [lia|].
    exists t. split; [exact Ht|].
    rewrite Forall_lookup in Hall. by apply (Hall i t).
Qed.

(** With at most one taint of the key, the loop returns. *)
Lemma removeTaint_range_single name k : forall i arr (st : St E),
  length arr = (i + k)%nat ->
  (length (filter (fun t => taint_Key t = spotTaintToBeRemoved cfg) (drop i arr)) <= 1)%nat ->
  exists r, res_out (removeTaint_range cfg name (seq i k) arr (length arr) st) = Ok r.
Proof.
  induction k as [|k IH]; intros i arr st Hlen Hone; [simpl; eauto|].
  cbn [seq].
  destruct (arr !! i) as [ti|] eqn:Hi.
  2:{ apply lookup_ge_None in Hi. lia. }
  rewrite (drop_S _ _ _ Hi) in Hone.
  destruct (decide (taint_Key ti = spotTaintToBeRemoved cfg)) as [Hti|Hti].
  - rewrite filter_cons_True in Hone by assumption. simpl in Hone.
    destruct (length arr) as [|n0] eqn:Hn; [lia|].
    destruct (arr !! n0) as [last|] eqn:Hlast.
    2:{ apply lookup_ge_None in Hlast. lia. }
    rewrite (removeTaint_range_match _ _ _ _ _ _ _ _ Hi Hti Hlast) by lia.
    simpl. rewrite removeTaint_range_clean; [simpl; eauto|].
    apply Forall_forall. intros j Hj. apply elem_of_seq in Hj.
    destruct (lookup_lt_is_Some_2 arr j) as [t Ht]; [lia|].
    exists t. split; [rewrite list_lookup_insert_ne by lia; exact Ht|].
    intros Hk.
    assert (Hin : t ∈ filter (fun t => taint_Key t = spotTaintToBeRemoved cfg) (drop (Datatypes.S i) arr)).
    { apply list_elem_of_filter. split; [exact Hk|].
      apply list_elem_of_lookup. exists (j - Datatypes.S i)%nat.
      rewrite lookup_drop. replace (Datatypes.S i + (j - Datatypes.S i))%nat
        with j by lia. exact Ht. }
    destruct (filter _ (drop (Datatypes.S i) arr)); [|simpl in Hone; lia].
    by apply elem_of_nil in Hin.
  - rewrite filter_cons_False in Hone by assumption.
    rewrite (removeTaint_range_other _ _ _ _ _ _ _ Hi Hti).
    apply IH; [lia|exact Hone].
Qed.

(** A node with at most one taint of the key is reconciled. *)
Lemma removeTaint_node_single nodeInfo (st : St E) :
  (length (filter (fun t => taint_Key t = spotTaintToBeRemoved cfg)
                  (node_Taints (ni_Node nodeInfo))) <= 1)%nat ->
  exists nodeInfo',
    res_out (removeTaint_node cfg nodeInfo st) = Ok nodeInfo' /\
    reconciled (spotTaintToBeRemoved cfg) nodeInfo nodeInfo'.
Proof.
  intros Hone.
  destruct (removeTaint_range_single (node_Name (ni_Node nodeInfo))
              (length (node_Taints (ni_Node nodeInfo))) 0
              (node_Taints (ni_Node nodeInfo)) st eq_refl Hone) as [r Hr].
  assert (Hok : res_out (removeTaint_node cfg nodeInfo st) =
                Ok (mkNodeInfo (mkNode (node_Name (ni_Node nodeInfo))
                                       (take r.2 r.1))
                               (ni_Pods nodeInfo))).
  { unfold removeTaint_node. rewrite bind_run, Hr. reflexivity. }
  eexists. split; [exact Hok|]. eapply removeTaint_node_ok, Hok.
Qed.

(** X16: with a key configured, every spot node of a reconciliation that
    returns is reconciled:
    its taints with the key are gone, the others are there in some order,
    its name and pods are as before. *)
Lemma removeTaintFromAllSpotNodes_ok spot spot' (st : St E) :
  spotTaintToBeRemoved cfg <> "" ->
  res_out (removeTaintFromAllSpotNodes cfg spot st) = Ok spot' ->
  Forall2 (reconciled (spotTaintToBeRemoved cfg)) spot spot'.
Proof.
  intros Hkey. unfold removeTaintFromAllSpotNodes.
  destruct (decide (spotTaintToBeRemoved cfg = "")); [congruence|].
  revert spot' st. induction spot as [|ni rest IH]; intros spot' st.
  - simpl. intros [= <-]. constructor.
  - cbn [removeTaint_nodes]. rewrite bind_run.
    destruct (res_out (removeTaint_node cfg ni st)) as [ni'|] eqn:Hni;
      [|discriminate].
    simpl. rewrite bind_run.
    destruct (res_out (removeTaint_nodes cfg rest _)) as [rest'|] eqn:Hrest;
      [|discriminate].
    simpl. intros [= <-]. constructor.
    + eapply removeTaint_node_ok, Hni.
    + eapply IH, Hrest.
Qed.

Lemma removeTaintFromAllSpotNodes_off spot (st : St E) :
  spotTaintToBeRemoved cfg = "" ->
  removeTaintFromAllSpotNodes cfg spot st = mkRes (Ok spot) st [].
Proof.
  intros Hkey. unfold removeTaintFromAllSpotNodes.
  destruct (decide (spotTaintToBeRemoved cfg = "")); [reflexivity|congruence].
Qed.

End Taints.

Import Demo Cases.

Lemma world_clock_monotone : clock_monotone (E:=World).
Proof.
  split; intros; simpl; unfold Second; try destruct (w_updateErr _); simpl; lia.
Qed.

Example consolidation_succeeds :
  res_out (tick (S:=Snap) config 0 twoPods) = Ok 664000001000 /\
  In (EvAddPod 1%nat "spot-1") (res_evs (tick (S:=Snap) config 0 twoPods)) /\
  ~ In (EvAddPod 2%nat "spot-1") (res_evs (tick (S:=Snap) config 0 twoPods)).
Proof.
  vm_compute. split; [reflexivity|]. split.
  - repeat (first [left; reflexivity | right]).
  - intros H. repeat (destruct H as [H|H]; [discriminate|]). exact H.
Qed.

Example taint_removal :
  res_out (removeTaintFromAllSpotNodes config
             [spotWith [preemptNoSchedule; gpuNoSchedule]] (tainted []))
  = Ok [spotWith [gpuNoSchedule]] /\
  removeTaintFromAllSpotNodes config [spotWith [gpuNoSchedule]] (tainted [])
  = mkRes (Ok [spotWith [gpuNoSchedule]]) (tainted []) [].
Proof. vm_compute. split; reflexivity. Qed.

Example empty_cluster :
  tick (S:=Snap) config 0 emptyCluster =
  mkRes (Ok 0) (state ∅ (advance (4 * Second) (ext emptyCluster)))
        [EvListUnschedulablePods;
         EvLog (SevV 3) MsgStartingNodeProcessing;
         EvListNodes;
         EvNewNodeMap;
         EvUpdateNodesMap (mkNodeMap [] []);
         EvListPDBs;
         EvGetClusterSnapshot;
         EvLog (SevV 2) MsgNoNodesToProcess;
         EvLog (SevV 3) MsgFinishedProcessing].
Proof. vm_compute. reflexivity. Qed.

Example daemon_set_pods_only :
  res_out (tick (S:=Snap) config 0 daemonSetOnly) = Ok 0 /\
  In (EvLog (SevV 2) (MsgNoPodsSkipping "on-demand-1"))
     (res_evs (tick (S:=Snap) config 0 daemonSetOnly)) /\
  drain_count (res_evs (tick (S:=Snap) config 0 daemonSetOnly)) = 0%nat.
Proof.
  vm_compute. split; [reflexivity|]. split; [|reflexivity].
  repeat (first [left; reflexivity | right]).
Qed.

Example hard_blocker :
  res_out (tick (S:=Snap) config 0 blockerDoesNotFit) = Ok 0 /\
  In EvRevert (res_evs (tick (S:=Snap) config 0 blockerDoesNotFit)) /\
  drain_count (res_evs (tick (S:=Snap) config 0 blockerDoesNotFit)) = 0%nat.
Proof.
  vm_compute. split; [reflexivity|]. split; [|reflexivity].
  repeat (first [left; reflexivity | right]).
Qed.

Example drain_failure_arms_cooldown :
  res_out (tick (S:=Snap) config 0 drainFails) = Ok 664000001000 /\
  In (EvLog SevError (MsgFailedDrain "eviction timed out"))
     (res_evs (tick (S:=Snap) config 0 drainFails)).
Proof.
  vm_compute. split; [reflexivity|].
  repeat (first [left; reflexivity | right]).
Qed.

(** C1, as stated, fails: the pod [db] is annotated [safe-to-evict=false],
    the spot node accepts it, the planner returns no error and the node is
    drained in that tick. *)
Lemma blocker_with_spot_is_drained :
  heap blockerFits !! 1%nat = Some db /\
  annotation db safeToEvictKey = "false" /\
  res_out (canDrainNode (Fork emptySnap) [spot1] [1%nat] blockerFits)
  = Ok (None, mkSnap [("db", "spot-1")] [[]]) /\
  In (EvDrainNode "on-demand-1" [1%nat] 4000001000)
     (res_evs (tick (S:=Snap) config 0 blockerFits)).
Proof.
  vm_compute. repeat split.
  repeat (first [left; reflexivity | right]).
Qed.

(** The amended C1 on the cluster whose only spot node is full. *)
Lemma blocker_without_spot_not_drained_witness :
  exists st2 evs2 evs,
    canDrainNode (Fork emptySnap) [spotFull] ([] ++ 1%nat :: []) blockerDoesNotFit =
      mkRes (Ok (Some (cannotRescheduleError db), Fork emptySnap)) st2 evs2 /\
    quiet evs /\
    drainLoop config (onDemand [1%nat] :: []) [spotFull] [] emptySnap 0
              blockerDoesNotFit =
      prefixed evs (drainLoop config [] [spotFull] [] (Revert (Fork emptySnap)) 0 st2).
Proof.
  apply (blocker_without_spot_not_drained config (onDemand [1%nat]) [] [spotFull]
           [] emptySnap (Fork emptySnap) 0 blockerDoesNotFit blockerDoesNotFit
           blockerDoesNotFit [] 1%nat [] [] [] db).
  - reflexivity.
  - vm_compute. reflexivity.
  - reflexivity.
  - vm_compute. reflexivity.
  - vm_compute. reflexivity.
  - repeat constructor.
Defined.

(** C3 on a tick whose drain fails. *)
Lemma cooldown_armed_after_drain_witness :
  In (EvDrainNode "on-demand-1" [1%nat] 4000001000)
     (res_evs (tick (S:=Snap) config 1000 drainFails)) /\
  1000 <= 4000001000 /\
  exists next',
    res_out (tick (S:=Snap) config 1000 drainFails) = Ok next' /\
    4000001000 + nodeDrainDelay config <= next'.
Proof.
  assert (Hin : In (EvDrainNode "on-demand-1" [1%nat] 4000001000)
                   (res_evs (tick (S:=Snap) config 1000 drainFails))).
  { vm_compute. repeat (first [left; reflexivity | right]). }
  split; [exact Hin|].
  exact (cooldown_armed_after_drain config world_clock_monotone 1000 drainFails
           "on-demand-1" [1%nat] 4000001000 Hin).
Defined.

(** C4 on two pods, a full spot node and one with room. *)
Lemma planner_first_fit_accumulates_witness :
  heap twoPods !! 1%nat = Some web /\
  res_out (findSpotNodeForPod emptySnap [spotFull; spot1] 1%nat twoPods)
  = Ok "spot-1" /\
  canDrainNode emptySnap [spotFull; spot1] [1%nat; 2%nat] twoPods =
  prefixed
    [EvLog (SevV 4) (MsgCantReschedule "default/web" "full" "Insufficient cpu");
     EvLog (SevV 4) (MsgAddingToPlan "default/web" "spot-1");
     EvAddPod 1%nat "spot-1"]
    (canDrainNode (AddPod emptySnap (clearNodeName web) "spot-1")
                  [spotFull; spot1] [2%nat]
                  (searched [spotFull; spot1] 1%nat twoPods)).
Proof.
  assert (Hp : heap twoPods !! 1%nat = Some web) by (vm_compute; reflexivity).
  split; [exact Hp|].
  destruct (planner_first_fit_accumulates emptySnap [spotFull; spot1] 1%nat
              [2%nat] twoPods web Hp) as (Hfind & _ & Hstep).
  split; [exact Hfind|exact Hstep].
Defined.


(** C7 on a cluster with three pending pods. *)
Lemma tick_backpressure_witness :
  (Time_Sub 0 (clock (ext pending)) >? 0) = false /\
  (0 < length (unschedulablePodLister_List (ext pending)).1.1)%nat /\
  tick (S:=Snap) config 0 pending =
  mkRes (Ok 0)
        (mkSt (heap pending) (unschedulablePodLister_List (ext pending)).2)
        [EvListUnschedulablePods; EvLog (SevV 2) MsgWaitingUnschedulable].
Proof.
  assert (Hgate : (Time_Sub 0 (clock (ext pending)) >? 0) = false)
    by reflexivity.
  assert (Hlen : (0 < length (unschedulablePodLister_List (ext pending)).1.1)%nat)
    by (simpl; lia).
  split; [exact Hgate|]. split; [exact Hlen|].
  exact (tick_backpressure (S:=Snap) config 0 pending Hgate Hlen).
Defined.

(** C8 on the program: the listing of unschedulable pods fails, the error
    is logged, and the tick goes on: it builds the node map, plans and
    drains. *)
Theorem unschedulable_list_error_still_drains :
  (unschedulablePodLister_List (ext listFails)).1 = ([], Some "cache not synced") /\
  res_evs (tick (S:=Snap) config 0 listFails) =
  [EvListUnschedulablePods;
   EvLog SevError (MsgFailedUnschedulable "cache not synced");
   EvLog (SevV 3) MsgStartingNodeProcessing;
   EvListNodes;
   EvNewNodeMap;
   EvUpdateNodesMap (mkNodeMap [onDemand [1%nat]] [spot1]);
   EvListPDBs;
   EvGetClusterSnapshot;
   EvGetPodsForDeletionOnNodeDrain "spot-1";
   EvUpdateNodePodsCount "kubernetes.io/role=spot-worker" "spot-1" 0;
   EvGetPodsForDeletionOnNodeDrain "on-demand-1";
   EvUpdateNodePodsCount "kubernetes.io/role=worker" "on-demand-1" 1;
   EvLog (SevV 2) (MsgConsidering "on-demand-1");
   EvFork;
   EvLog (SevV 4) (MsgAddingToPlan "default/web" "spot-1");
   EvAddPod 1%nat "spot-1";
   EvLog (SevV 2) (MsgWillDrain "on-demand-1");
   EvDrainNode "on-demand-1" [1%nat] 4000001000;
   EvUpdateNodeDrainCount "Success" "on-demand-1";
   EvLog (SevV 3) MsgFinishedProcessing].
Proof. vm_compute. split; reflexivity. Qed.

(** C9 on the program: an owner reference whose [Controller] is nil makes
    the daemon-set exclusion, and with it the tick, panic. *)
Theorem nil_Controller_panics :
  pod_OwnerReferences job = [mkOwner "Workflow" None] /\
  controlledByDaemonSet (pod_OwnerReferences job) = Panic NilDereference /\
  res_out (buildPodsForDeletion [1%nat] [] nilController) = Panic NilDereference /\
  res_out (tick (S:=Snap) config 0 nilController) = Panic NilDereference.
Proof. vm_compute. repeat split. Qed.

(** C10 on the program: with two taints of the configured key, the second
    is found at index 1 of the slice as it was, when [Spec.Taints] has
    length 1: the write [Taints[1] = ...] is out of range. *)
Theorem two_matching_taints_index_out_of_range :
  res_out (removeTaintFromAllSpotNodes config
             [spotWith [preemptNoSchedule; preemptNoExecute]] (tainted []))
  = Panic (IndexOutOfRange 1 1) /\
  res_out (tick (S:=Snap) config 0 (tainted [preemptNoSchedule; preemptNoExecute]))
  = Panic (IndexOutOfRange 1 1).
Proof. vm_compute. split; reflexivity. Qed.

(** C6 on the program: of two taints with the configured key the first is
    replaced by the last and the node is updated with the other still on
    it; the loop then panics, and the taint is never removed. *)
Theorem matching_taint_survives :
  removeTaintFromAllSpotNodes config
    [spotWith [preemptNoSchedule; gpuNoSchedule; preemptNoExecute]] (tainted [])
  = mkRes (Panic (IndexOutOfRange 2 2))
          (mkSt ∅ (advance Second (ext (tainted []))))
          [EvNodeUpdate (mkNode "spot-x" [preemptNoExecute; gpuNoSchedule]);
           EvLog SevInfo (MsgRemovedTaint "spot-x")].
Proof. vm_compute. reflexivity. Qed.

(** * Further properties *)

(** ** The label flags *)

Lemma strings_Split_length s sep :
  length (strings_Split s sep) = Datatypes.S (strings_Count s sep).
Proof.
  induction s as [|c rest IH]; simpl; [reflexivity|].
  destruct (Ascii.eqb c sep); simpl; [by rewrite IH|].
  destruct (strings_Split rest sep); simpl in *; [discriminate|exact IH].
Qed.

Lemma strings_Join_cons c piece pieces sep :
  strings_Join (String c piece :: pieces) sep =
  String c (strings_Join (piece :: pieces) sep).
Proof. destruct pieces; reflexivity. Qed.

Lemma strings_Split_Join s sep :
  strings_Join (strings_Split s sep) (String sep EmptyString) = s.
Proof.
  induction s as [|c rest IH]; simpl; [reflexivity|].
  pose proof (strings_Split_length rest sep) as Hlen.
  destruct (Ascii.eqb c sep) eqn:Hc.
  - apply Ascii.eqb_eq in Hc as ->.
    destruct (strings_Split rest sep) as [|piece pieces];
      [discriminate|].
    change (strings_Join (EmptyString :: piece :: pieces) (String sep EmptyString))
      with (String sep (strings_Join (piece :: pieces) (String sep EmptyString))).
    by rewrite IH.
  - destruct (strings_Split rest sep) as [|piece pieces];
      [discriminate|].
    by rewrite strings_Join_cons, IH.
Qed.

Lemma strings_Split_pieces s sep :
  Forall (fun piece => strings_Count piece sep = 0%nat) (strings_Split s sep).
Proof.
  induction s as [|c rest IH]; simpl; [repeat constructor|].
  destruct (Ascii.eqb c sep) eqn:Hc.
  - constructor; [reflexivity|exact IH].
  - destruct (strings_Split rest sep) as [|piece pieces];
      [repeat constructor; simpl; by rewrite Hc|].
    apply Forall_cons in IH as [Hp Hps].
    constructor; [simpl; by rewrite Hc|exact Hps].
Qed.

Lemma validateArgs_nil_counts onDemandNodeLabel spotNodeLabel :
  validateArgs onDemandNodeLabel spotNodeLabel = None <->
  (strings_Count onDemandNodeLabel "="%char <= 1)%nat /\
  (strings_Count spotNodeLabel "="%char <= 1)%nat.
Proof.
  unfold validateArgs. rewrite !strings_Split_length.
  destruct (2 <? Datatypes.S (strings_Count onDemandNodeLabel "="%char))%nat eqn:H1;
    [apply Nat.ltb_lt in H1|apply Nat.ltb_ge in H1].
  - split; [discriminate|lia].
  - destruct (2 <? Datatypes.S (strings_Count spotNodeLabel "="%char))%nat eqn:H2;
      [apply Nat.ltb_lt in H2|apply Nat.ltb_ge in H2].
    + split; [discriminate|lia].
    + split; [intros _; lia|reflexivity].
Qed.

(** X21: [validateArgs] returns no error exactly when neither label holds
    more than one [=]; the on-demand label is looked at first. *)
Theorem validateArgs_nil_iff onDemandNodeLabel spotNodeLabel :
  (validateArgs onDemandNodeLabel spotNodeLabel = None <->
   (strings_Count onDemandNodeLabel "="%char <= 1)%nat /\
   (strings_Count spotNodeLabel "="%char <= 1)%nat) /\
  ((1 < strings_Count onDemandNodeLabel "="%char)%nat <->
   validateArgs onDemandNodeLabel spotNodeLabel =
   Some (onDemandLabelError onDemandNodeLabel)).
Proof.
  split; [apply validateArgs_nil_counts|].
  unfold validateArgs. rewrite !strings_Split_length.
  destruct (2 <? Datatypes.S (strings_Count onDemandNodeLabel "="%char))%nat eqn:H1;
    [apply Nat.ltb_lt in H1|apply Nat.ltb_ge in H1].
  - split; [reflexivity|lia].
  - destruct (2 <? Datatypes.S (strings_Count spotNodeLabel "="%char))%nat eqn:H2;
      split; try discriminate; lia.
Qed.

(** X22: a label that [validateArgs] lets through is a key without [=], or
    a key and a value without [=] with one [=] between them, and
    [strings.Split] gives these pieces. *)
Theorem validateArgs_accepts_key_or_key_value onDemandNodeLabel spotNodeLabel label :
  validateArgs onDemandNodeLabel spotNodeLabel = None ->
  label = onDemandNodeLabel \/ label = spotNodeLabel ->
  (strings_Split label "="%char = [label] /\
   strings_Count label "="%char = 0%nat) \/
  exists k v,
    strings_Split label "="%char = [k; v] /\
    label = k +:+ "=" +:+ v /\
    strings_Count k "="%char = 0%nat /\ strings_Count v "="%char = 0%nat.
Proof.
  intros Hok Hlabel.
  apply validateArgs_nil_counts in Hok as [Ha Hb].
  assert (Hcount : (strings_Count label "="%char <= 1)%nat)
    by (destruct Hlabel as [-> | ->]; assumption).
  pose proof (strings_Split_length label "="%char) as Hlen.
  pose proof (strings_Split_Join label "="%char) as Hjoin.
  pose proof (strings_Split_pieces label "="%char) as Hpieces.
  destruct (strings_Split label "="%char) as [|k [|v [|w pieces]]];
    simpl in Hlen; try lia.
  - left. simpl in Hjoin. subst k. split; [reflexivity|].
    by apply Forall_cons in Hpieces as [Hk _].
  - right. exists k, v. simpl in Hjoin.
    apply Forall_cons in Hpieces as [Hk Hpieces].
    apply Forall_cons in Hpieces as [Hv _]. auto.
Qed.

(** ** The tick *)

Section FurtherTick.
Context {E S : Type} `{!Cluster E} `{!ClusterSnapshot S}.
Variable cfg : Config.



(** X4: a tick changes [nextDrainTime] only by a drain: with no call of
    the drain executor it returns the one it was given, with one it returns
    the clock, read after the executor, plus [nodeDrainDelay]. *)
Theorem nextDrainTime_changes_only_by_drain next (st : St E) :
  (drain_count (res_evs (tick (S:=S) cfg next st)) = 0%nat /\
   (res_out (tick (S:=S) cfg next st) = Ok next \/
    exists p, res_out (tick (S:=S) cfg next st) = Panic p)) \/
  (drain_count (res_evs (tick (S:=S) cfg next st)) = 1%nat /\
   res_out (tick (S:=S) cfg next st) =
   Ok (Time_Add (clock (ext (res_st (tick (S:=S) cfg next st))))
                (nodeDrainDelay cfg))).
Proof.
  pose proof (tick_tick_run cfg next st) as Hrun.
  remember (tick (S:=S) cfg next st) as r eqn:Hr. clear Hr.
  destruct Hrun as [r Hq Hnext | pre post node pods st_d Hq Hpost].
  - left. split; [by apply quiet_drain_count|].
    destruct (res_out r) as [next'|p] eqn:Hout; [|eauto].
    left. by rewrite (Hnext next' eq_refl).
  - right. simpl. split; [|reflexivity].
    rewrite drain_count_app, (quiet_drain_count pre) by assumption.
    change (EvDrainNode (node_Name node) pods (clock (ext st_d)) :: post)
      with ([EvDrainNode (node_Name node) pods (clock (ext st_d))] ++ post).
    rewrite drain_count_app, (quiet_drain_count post)
      by (by apply after_drain_quiet).
    reflexivity.
Qed.

(** X8: whatever a tick does, it writes to the pods only by clearing
    [Spec.NodeName]: every pod is as before or as before without its node
    name, and no pod appears or goes. *)
Theorem tick_only_clears_NodeName next (st : St E) q :
  heap (res_st (tick (S:=S) cfg next st)) !! q = heap st !! q \/
  heap (res_st (tick (S:=S) cfg next st)) !! q = clearNodeName <$> heap st !! q.
Proof.
  apply (keeps_tick cfg
           (fun st1 st2 : St E =>
              heap st2 !! q = heap st1 !! q \/
              heap st2 !! q = clearNodeName <$> heap st1 !! q)
           (fun _ _ => True)); simpl; auto.
  - intros st1 st2 st3 [H12 | H12] [H23 | H23]; rewrite H23, H12; auto.
    right. destruct (heap st1 !! q); reflexivity.
  - intros st1 p pod Hp. destruct (decide (p = q)) as [->|Hne].
    + rewrite lookup_insert_eq, Hp. auto.
    + rewrite lookup_insert_ne by assumption. auto.
Qed.

Lemma Time_Sub_le t u : t <= u -> (Time_Sub t u >? 0) = false.
Proof.
  unfold Time_Sub, minDuration, maxDuration. intros H.
  rewrite Z.gtb_ltb. apply Z.ltb_ge.
  change (2 ^ 63) with 9223372036854775808. lia.
Qed.




Lemma tick_open_first_event next (st : St E) :
  next <= clock (ext st) ->
  exists evs,
    res_evs (tick (S:=S) cfg next st) = EvListUnschedulablePods :: evs.
Proof.
  intros Hgate. unfold tick.
  rewrite bind_evs. simpl. rewrite (Time_Sub_le _ _ Hgate).
  rewrite bind_evs. simpl. eauto.
Qed.

(** X2: [run] sets [nextDrainTime] to the time it starts at, so with a
    clock that the timer does not turn back its first tick is not in
    cooldown: it goes on to list the unschedulable pods. *)
Theorem run_starts_processing ticks (st : St E) :
  (forall d e, clock e <= clock (time_After d e).2) ->
  exists evs,
    res_evs (run (S:=S) cfg (Datatypes.S ticks) st) =
    EvListUnschedulablePods :: evs.
Proof.
  intros Hafter. unfold run. rewrite bind_evs. simpl.
  rewrite bind_evs.
  destruct (tick_open_first_event (clock (ext st))
              (mkSt (heap st) (time_After (housekeepingInterval cfg) (ext st)).2))
    as [evs ->]; [apply Hafter|].
  simpl. eauto.
Qed.

End FurtherTick.

(** ** The loop over the on-demand nodes *)

Section FurtherLoop.
Context {E S : Type} `{!Cluster E} `{!ClusterSnapshot S}.
Variable cfg : Config.

Lemma controlledByDaemonSet_ok owners b :
  controlledByDaemonSet owners = Ok b ->
  b = existsb isDaemonSetController owners.
Proof.
  induction owners as [|owner rest IH]; simpl; [by intros [= <-]|].
  unfold isDaemonSetController at 1.
  destruct (owner_Controller owner) as [c|]; [|discriminate].
  destruct (c && bool_decide (owner_Kind owner = "DaemonSet")); simpl;
    [by intros [= <-]|exact IH].
Qed.

(** X9: whenever the daemon-set exclusion returns, the movable set is the
    pods that have no daemon-set controller among their owners, in the
    order they came in, and nothing was written. *)
Theorem movable_pods_exclude_daemon_sets allPods : forall acc (st : St E) pods,
  res_out (buildPodsForDeletion allPods acc st) = Ok pods ->
  pods = acc ++ List.filter (fun pod => negb (ownedByDaemonSet (heap st) pod))
                            allPods /\
  res_st (buildPodsForDeletion allPods acc st) = st.
Proof.
  induction allPods as [|pod rest IH]; intros acc st pods.
  - simpl. intros [= <-]. by rewrite app_nil_r.
  - cbn [buildPodsForDeletion List.filter].
    rewrite bind_run. unfold deref, ownedByDaemonSet at 1.
    destruct (heap st !! pod) as [p|] eqn:Hp; simpl; [|discriminate].
    rewrite bind_run. simpl.
    destruct (controlledByDaemonSet (pod_OwnerReferences p)) as [b|] eqn:Hds;
      simpl; [|discriminate].
    apply controlledByDaemonSet_ok in Hds as <-.
    destruct b; simpl.
    + apply IH.
    + intros Hok. destruct (IH _ _ _ Hok) as [-> ->].
      by rewrite <- app_assoc.
Qed.

(** X12: when the drain-eligibility helper returns an error for a node,
    the loop logs it and goes on with the next node: no fork, no plan, no
    drain, the snapshot and [nextDrainTime] as before. *)
Theorem drainLoop_helper_error ni rest spot pdbs (snap : S) next (st : St E) er :
  let r := GetPodsForDeletionOnNodeDrain (heap st) (ni_Pods ni) pdbs
             (deleteNonReplicatedPods cfg) false false (clock (ext st)) in
  r.2 = Some er ->
  drainLoop cfg (ni :: rest) spot pdbs snap next st =
  prefixed
    (EvGetPodsForDeletionOnNodeDrain (node_Name (ni_Node ni)) ::
     blockingLog r.1.2 (Some er) ++
     [EvLog SevError (MsgFailedPodsForConsideration er)])
    (drainLoop cfg rest spot pdbs snap next st).
Proof.
  intros r Herr. cbn [drainLoop]. do 3 (rewrite bind_run; simpl).
  fold r. rewrite Herr. rewrite bind_run.
  destruct r.1.2; simpl; rewrite bind_run; simpl;
    rewrite !prefixed_app; reflexivity.
Qed.

(** X11: a node with no movable pod, such as one with daemon-set pods
    only, is passed over: its pod count is set to 0, there is no fork, no
    plan, no drain, and the loop goes on with the snapshot and
    [nextDrainTime] as before. *)
Theorem drainLoop_no_movable_pods ni rest spot pdbs (snap : S) next (st : St E)
    evs_b :
  let r := GetPodsForDeletionOnNodeDrain (heap st) (ni_Pods ni) pdbs
             (deleteNonReplicatedPods cfg) false false (clock (ext st)) in
  r.2 = None ->
  buildPodsForDeletion r.1.1 [] st = mkRes (Ok []) st evs_b ->
  drainLoop cfg (ni :: rest) spot pdbs snap next st =
  prefixed
    (EvGetPodsForDeletionOnNodeDrain (node_Name (ni_Node ni)) ::
     blockingLog r.1.2 None ++ evs_b ++
     [EvUpdateNodePodsCount (OnDemandNodeLabel cfg) (node_Name (ni_Node ni)) 0;
      EvLog (SevV 2) (MsgNoPodsSkipping (node_Name (ni_Node ni)))])
    (drainLoop cfg rest spot pdbs snap next st).
Proof.
  intros r Herr Hb. cbn [drainLoop]. do 3 (rewrite bind_run; simpl).
  fold r. rewrite Herr. rewrite bind_run.
  destruct r.1.2; simpl; rewrite bind_run, Hb; simpl;
    do 2 (rewrite bind_run; simpl);
    rewrite !prefixed_app; simpl; rewrite <- ?app_assoc; reflexivity.
Qed.

Lemma placements_app evs1 evs2 :
  placements (evs1 ++ evs2) = placements evs1 ++ placements evs2.
Proof.
  induction evs1 as [|e evs1 IH]; simpl; [reflexivity|].
  destruct e; simpl; by rewrite ?IH.
Qed.

Lemma placements_rejections (snap : S) pod nodes :
  placements (rejections snap pod nodes) = [].
Proof.
  induction nodes as [|ni rest IH]; simpl; [reflexivity|].
  destruct (CheckPredicates snap pod (node_Name (ni_Node ni))); simpl; auto.
Qed.

Lemma firstFit_in (snap : S) pod nodes :
  firstFit snap pod nodes <> "" ->
  exists ni, ni ∈ nodes /\ node_Name (ni_Node ni) = firstFit snap pod nodes.
Proof.
  unfold firstFit. pose proof (find_first (accepts snap pod) nodes) as Hf.
  destruct (find (accepts snap pod) nodes) as [ni|]; [|congruence].
  destruct Hf as (before & after & -> & _). intros _.
  exists ni. split; [|reflexivity].
  apply elem_of_app. right. apply list_elem_of_here.
Qed.

(** X14: the planner adds to the snapshot only pods of the list it is
    given, each at most once and in their order, and only on spot nodes of
    the sequence it is given, by their name, which is not empty. *)
Theorem planner_places_listed_pods_on_listed_nodes nodes pods :
  forall (snap : S) (st : St E),
    sublist (map fst (placements (res_evs (canDrainNode snap nodes pods st)))) pods /\
    Forall (fun pn => pn.2 <> "" /\
                      exists ni, ni ∈ nodes /\ node_Name (ni_Node ni) = pn.2)
           (placements (res_evs (canDrainNode snap nodes pods st))).
Proof.
  induction pods as [|pod rest IH]; intros snap st.
  - simpl. split; constructor.
  - rewrite canDrainNode_step.
    destruct (heap st !! pod) as [p|]; simpl.
    2:{ split; [apply sublist_nil_l|constructor]. }
    destruct (decide (firstFit snap (clearNodeName p) nodes = "")) as [Hn|Hn].
    + destruct (decide (annotation p safeToEvictKey = "false")); simpl.
      * rewrite placements_rejections. split; [apply sublist_nil_l|constructor].
      * rewrite placements_app, placements_app, placements_rejections. simpl.
        destruct (IH snap (searched nodes pod st)) as [Hsub Hall].
        split; [by apply sublist_cons|exact Hall].
    + simpl. rewrite placements_app, placements_app, placements_rejections.
      simpl.
      destruct (IH (AddPod snap (clearNodeName p)
                      (firstFit snap (clearNodeName p) nodes))
                   (searched nodes pod st)) as [Hsub Hall].
      split; [by apply sublist_skip|].
      constructor; [|exact Hall]. simpl. split; [exact Hn|].
      by apply firstFit_in.
Qed.

(** X13: with no spot node at all the planner writes nothing, places
    nothing, and fails only for a pod annotated [safe-to-evict=false]: a
    node without such a pod is found drainable though no node can take its
    pods. *)
Theorem canDrainNode_without_spot_nodes (snap : S) pods : forall (st : St E),
  Forall (fun pod => is_Some (heap st !! pod)) pods ->
  res_st (canDrainNode snap [] pods st) = st /\
  placements (res_evs (canDrainNode snap [] pods st)) = [] /\
  exists r,
    res_out (canDrainNode snap [] pods st) = Ok (r, snap) /\
    (r = None <->
     Forall (fun pod => forall p, heap st !! pod = Some p ->
                                  annotation p safeToEvictKey <> "false") pods).
Proof.
  induction pods as [|pod rest IH]; intros st Hall.
  - simpl. repeat split; eauto. exists None. repeat split; auto.
  - apply Forall_cons in Hall as [[p Hp] Hall].
    rewrite canDrainNode_step, Hp. simpl.
    destruct (decide (firstFit snap (clearNodeName p) [] = ""));
      [|by unfold firstFit in *].
    destruct (decide (annotation p safeToEvictKey = "false")) as [Ha|Ha]; simpl.
    + repeat split. eexists. split; [reflexivity|].
      split; [discriminate|].
      intros Hf. apply Forall_cons in Hf as [Hf _]. by destruct (Hf p Hp).
    + destruct (IH st Hall) as (Hst & Hpl & r & Hout & Hr).
      repeat split; [exact Hst|exact Hpl|].
      exists r. split; [exact Hout|]. rewrite Hr. split.
      * intros Hf. constructor; [|exact Hf]. intros p' Hp'. congruence.
      * intros Hf. by apply Forall_cons in Hf as [_ Hf].
Qed.

Lemma helperCalls_app evs1 evs2 :
  helperCalls (evs1 ++ evs2) = helperCalls evs1 ++ helperCalls evs2.
Proof.
  induction evs1 as [|e evs1 IH]; simpl; [reflexivity|].
  destruct e; simpl; by rewrite ?IH.
Qed.

(** X15: [updateSpotNodeMetrics] goes through every spot node, also after
    the helper failed for one: it calls the helper once for each node, in
    order, never panics and writes nothing. *)
Theorem updateSpotNodeMetrics_visits_every_node spot pdbs : forall (st : St E),
  res_out (updateSpotNodeMetrics cfg spot pdbs st) = Ok tt /\
  res_st (updateSpotNodeMetrics cfg spot pdbs st) = st /\
  helperCalls (res_evs (updateSpotNodeMetrics cfg spot pdbs st)) =
  map (fun ni => node_Name (ni_Node ni)) spot.
Proof.
  induction spot as [|ni rest IH]; intros st; [by simpl|].
  cbn [updateSpotNodeMetrics map]. rewrite bind_run; simpl.
  destruct (IH st) as (Hout & Hst & Hcalls).
  destruct (GetPodsForDeletionOnNodeDrain _ _ _ _ _ _ _).2;
    rewrite bind_run; simpl; rewrite Hout, Hst, Hcalls; auto.
Qed.

End FurtherLoop.

(** ** The taint reconciler, further *)

Section FurtherTaints.
Context {E : Type} `{!Cluster E}.
Variable cfg : Config.

Lemma removeTaint_range_faults name k : forall i arr n (st : St E),
  length arr = (i + k)%nat -> (n <= length arr)%nat ->
  faults_from (spotTaintToBeRemoved cfg) n i (drop i arr) =
  match res_out (removeTaint_range cfg name (seq i k) arr n st) with
  | Ok _ => false
  | Panic _ => true
  end.
Proof.
  induction k as [|k IH]; intros i arr n st Hlen Hn.
  - rewrite drop_ge by lia. reflexivity.
  - cbn [seq].
    destruct (arr !! i) as [ti|] eqn:Hi.
    2:{ apply lookup_ge_None in Hi. lia. }
    rewrite (drop_S _ _ _ Hi). cbn [faults_from].
    destruct (decide (taint_Key ti = spotTaintToBeRemoved cfg)) as [Hti|Hti].
    + rewrite bool_decide_eq_true_2 by assumption.
      destruct (n <=? i)%nat eqn:Hle;
        [apply Nat.leb_le in Hle|apply Nat.leb_gt in Hle].
      * destruct (removeTaint_range_out cfg name i (seq (Datatypes.S i) k)
                    arr n ti st Hi Hti Hle) as (index & len & ->).
        reflexivity.
      * destruct n as [|n0]; [lia|].
        destruct (arr !! n0) as [last|] eqn:Hlast.
        2:{ apply lookup_ge_None in Hlast. lia. }
        rewrite (removeTaint_range_match cfg _ _ _ _ _ _ _ _ Hi Hti Hlast Hle).
        simpl. rewrite Nat.sub_0_r.
        rewrite <- (IH (Datatypes.S i) (<[i := last]> arr) n0);
          rewrite ?length_insert; try lia.
        by rewrite drop_insert_lt by lia.
    + rewrite bool_decide_eq_false_2 by assumption.
      rewrite (removeTaint_range_other cfg _ _ _ _ _ _ _ Hi Hti).
      apply IH; lia.
Qed.

(** X18: the loop over the taints of a node panics exactly when a taint
    with the key sits at an index that, with the taints with the key
    before it counted, reaches the length of the slice; whether it does
    can be told from the taints alone. *)
Theorem removeTaint_node_faults nodeInfo (st : St E) :
  removalFaults (spotTaintToBeRemoved cfg) (node_Taints (ni_Node nodeInfo)) =
  match res_out (removeTaint_node cfg nodeInfo st) with
  | Ok _ => false
  | Panic _ => true
  end.
Proof.
  unfold removalFaults, removeTaint_node. rewrite bind_run.
  pose proof (removeTaint_range_faults (node_Name (ni_Node nodeInfo))
                (length (node_Taints (ni_Node nodeInfo))) 0
                (node_Taints (ni_Node nodeInfo))
                (length (node_Taints (ni_Node nodeInfo))) st eq_refl
                (Nat.le_refl _)) as H.
  rewrite drop_0 in H. rewrite H.
  by destruct (res_out (removeTaint_range _ _ _ _ _ _)).
Qed.

Lemma removeTaint_range_independent name idxs : forall arr n (st st' : St E),
  res_out (removeTaint_range cfg name idxs arr n st) =
  res_out (removeTaint_range cfg name idxs arr n st') /\
  heap (res_st (removeTaint_range cfg name idxs arr n st)) = heap st.
Proof.
  induction idxs as [|i rest IH]; intros arr n st st'; [by simpl|].
  destruct (arr !! i) as [ti|] eqn:Hi.
  2:{ cbn [removeTaint_range]. rewrite Hi. by simpl. }
  destruct (decide (taint_Key ti = spotTaintToBeRemoved cfg)) as [Hti|Hti].
  - destruct (decide (i < n)%nat) as [Hin|Hin].
    + destruct n as [|n0]; [lia|].
      destruct (arr !! n0) as [last|] eqn:Hlast.
      * rewrite !(removeTaint_range_match cfg _ _ _ _ _ _ _ _ Hi Hti Hlast Hin).
        simpl. split; [apply IH|].
        by destruct (IH (<[i := last]> arr) n0
                     (mkSt (heap st)
                        (Nodes_Update
                           (mkNode name (take n0 (<[i := last]> arr)))
                           (ext st)).2) st') as [_ ->].
      * cbn [removeTaint_range]. rewrite Hi, Hlast.
        destruct (decide _); [|congruence]. by simpl.
    + destruct (removeTaint_range_out cfg name i rest arr n ti st Hi Hti)
        as (index & len & Hp); [lia|].
      destruct (removeTaint_range_out cfg name i rest arr n ti st' Hi Hti)
        as (index' & len' & Hp'); [lia|].
      cbn [removeTaint_range] in *. rewrite Hi in *.
      destruct (decide _); [|congruence].
      destruct n as [|n0]; [by simpl|].
      destruct (arr !! n0); [|by simpl].
      destruct (decide _); [lia|by simpl].
  - rewrite !(removeTaint_range_other cfg _ _ _ _ _ _ _ Hi Hti). apply IH.
Qed.

(** X19: what the taint reconciler returns, and whether it panics, does
    not depend on the cluster or on what the updates answer: a failed
    update is logged and the taint is off the node object all the same.
    The pods are not written. *)
Theorem removeTaintFromAllSpotNodes_independent spot (st st' : St E) :
  res_out (removeTaintFromAllSpotNodes cfg spot st) =
  res_out (removeTaintFromAllSpotNodes cfg spot st') /\
  heap (res_st (removeTaintFromAllSpotNodes cfg spot st)) = heap st.
Proof.
  unfold removeTaintFromAllSpotNodes.
  destruct (decide (spotTaintToBeRemoved cfg = "")); [by simpl|].
  revert st st'. induction spot as [|ni rest IH]; intros st st'; [by simpl|].
  cbn [removeTaint_nodes]. rewrite !bind_run.
  assert (Hnode : forall s s' : St E,
            res_out (removeTaint_node cfg ni s) =
            res_out (removeTaint_node cfg ni s') /\
            heap (res_st (removeTaint_node cfg ni s)) = heap s).
  { intros s s'. unfold removeTaint_node. rewrite !bind_run.
    destruct (removeTaint_range_independent (node_Name (ni_Node ni))
                (seq 0 (length (node_Taints (ni_Node ni))))
                (node_Taints (ni_Node ni))
                (length (node_Taints (ni_Node ni))) s s') as [Ho Hh].
    rewrite <- Ho.
    destruct (res_out (removeTaint_range _ _ _ _ _ s)); simpl; auto. }
  destruct (Hnode st st') as [Ho Hh]. rewrite <- Ho.
  destruct (res_out (removeTaint_node cfg ni st)) as [ni'|]; simpl; [|auto].
  rewrite !bind_run.
  destruct (IH (res_st (removeTaint_node cfg ni st))
               (res_st (removeTaint_node cfg ni st'))) as [Ho' Hh'].
  rewrite <- Ho'.
  destruct (res_out (removeTaint_nodes cfg rest _)); simpl;
    split; auto; congruence.
Qed.

Lemma updateCount_app evs1 evs2 :
  updateCount (evs1 ++ evs2) = (updateCount evs1 + updateCount evs2)%nat.
Proof.
  induction evs1 as [|e evs1 IH]; simpl; [reflexivity|].
  destruct e; simpl; by rewrite ?IH.
Qed.

Lemma removeTaint_range_updates name k : forall i arr n (st : St E) r,
  length arr = (i + k)%nat ->
  res_out (removeTaint_range cfg name (seq i k) arr n st) = Ok r ->
  updateCount (res_evs (removeTaint_range cfg name (seq i k) arr n st)) =
  length (filter (fun t => taint_Key t = spotTaintToBeRemoved cfg) (drop i arr)).
Proof.
  induction k as [|k IH]; intros i arr n st r Hlen Hok.
  - rewrite drop_ge by lia. reflexivity.
  - cbn [seq] in *.
    destruct (arr !! i) as [ti|] eqn:Hi.
    2:{ apply lookup_ge_None in Hi. lia. }
    rewrite (drop_S _ _ _ Hi).
    destruct (decide (taint_Key ti = spotTaintToBeRemoved cfg)) as [Hti|Hti].
    + rewrite filter_cons_True by assumption.
      destruct (decide (i < n)%nat) as [Hin|Hin].
      2:{ destruct (removeTaint_range_out cfg name i (seq (Datatypes.S i) k)
                      arr n ti st Hi Hti) as (index & len & Hp); [lia|].
          rewrite Hp in Hok. discriminate. }
      destruct n as [|n0]; [lia|].
      destruct (arr !! n0) as [last|] eqn:Hlast.
      2:{ cbn [removeTaint_range] in Hok. rewrite Hi, Hlast in Hok.
          destruct (decide _) in Hok; [discriminate|congruence]. }
      rewrite (removeTaint_range_match cfg _ _ _ _ _ _ _ _ Hi Hti Hlast Hin)
        in Hok |- *.
      simpl in Hok |- *.
      rewrite (IH _ _ _ _ r); [|rewrite length_insert; lia|exact Hok].
      rewrite drop_insert_lt by lia.
      unfold updateLog.
      by destruct (Nodes_Update _ _).1 as [[u|] [er|]].
    + rewrite filter_cons_False by assumption.
      rewrite (removeTaint_range_other cfg _ _ _ _ _ _ _ Hi Hti) in Hok |- *.
      apply (IH _ _ _ _ r); [lia|exact Hok].
Qed.

(** X20: when the loop over the taints of a node returns, the node was
    updated once for each taint with the key it had, whatever the updates
    answered. *)
Theorem removeTaint_node_updates nodeInfo nodeInfo' (st : St E) :
  res_out (removeTaint_node cfg nodeInfo st) = Ok nodeInfo' ->
  updateCount (res_evs (removeTaint_node cfg nodeInfo st)) =
  length (filter (fun t => taint_Key t = spotTaintToBeRemoved cfg)
                 (node_Taints (ni_Node nodeInfo))).
Proof.
  unfold removeTaint_node. rewrite bind_run.
  destruct (res_out (removeTaint_range _ _ _ _ _ _)) as [r|] eqn:Hok;
    [|discriminate].
  intros _. simpl. rewrite app_nil_r.
  pose proof (removeTaint_range_updates (node_Name (ni_Node nodeInfo))
                (length (node_Taints (ni_Node nodeInfo))) 0
                (node_Taints (ni_Node nodeInfo))
                (length (node_Taints (ni_Node nodeInfo))) st r eq_refl Hok)
    as H.
  rewrite drop_0 in H. exact H.
Qed.

End FurtherTaints.

(** ** The further properties on the concrete clusters *)

Import Strict.

(** X1 on three ticks. *)
Lemma run_ticks_drains_spaced_witness :
  drains_spaced (nodeDrainDelay config) 1000
    (res_evs (run_ticks (S:=Snap) config 3 1000 twoPods)).
Proof.
  exact (run_ticks_drains_spaced config world_clock_monotone 3 1000 twoPods).
Defined.

Lemma run_starts_processing_witness :
  (forall d (e : World), clock e <= clock (time_After d e).2) /\
  exists evs,
    res_evs (run (S:=Snap) config 2 twoPods) = EvListUnschedulablePods :: evs.
Proof.
  assert (H : forall d (e : World), clock e <= clock (time_After d e).2)
    by (intros; simpl; lia).
  split; [exact H|].
  exact (run_starts_processing (S:=Snap) config 1 twoPods H).
Defined.





Lemma movable_pods_exclude_daemon_sets_witness :
  res_out (buildPodsForDeletion [1%nat; 2%nat] [] mixedPods) = Ok [1%nat] /\
  [1%nat] =
    [] ++ List.filter (fun pod => negb (ownedByDaemonSet (heap mixedPods) pod))
                      [1%nat; 2%nat] /\
  res_st (buildPodsForDeletion [1%nat; 2%nat] [] mixedPods) = mixedPods.
Proof.
  assert (H : res_out (buildPodsForDeletion [1%nat; 2%nat] [] mixedPods)
              = Ok [1%nat]) by (vm_compute; reflexivity).
  split; [exact H|].
  exact (movable_pods_exclude_daemon_sets [1%nat; 2%nat] [] mixedPods [1%nat] H).
Defined.

Lemma drainLoop_no_movable_pods_witness :
  drainLoop config (onDemand [1%nat] :: []) [spot1] [] emptySnap 0 daemonSetOnly =
  prefixed
    [EvGetPodsForDeletionOnNodeDrain "on-demand-1";
     EvLog (SevV 4) (MsgIgnoringDaemonSetPod "kube-system/agent");
     EvUpdateNodePodsCount "kubernetes.io/role=worker" "on-demand-1" 0;
     EvLog (SevV 2) (MsgNoPodsSkipping "on-demand-1")]
    (drainLoop config [] [spot1] [] emptySnap 0 daemonSetOnly).
Proof.
  etransitivity.
  - apply (drainLoop_no_movable_pods config (onDemand [1%nat]) [] [spot1] []
             emptySnap 0 daemonSetOnly
             [EvLog (SevV 4) (MsgIgnoringDaemonSetPod "kube-system/agent")]);
      [reflexivity|vm_compute; reflexivity].
  - vm_compute. reflexivity.
Defined.

Lemma drainLoop_helper_error_witness :
  drainLoop config (onDemand [1%nat] :: []) [spot1] [] emptySnap 0
            Strict.orphanOnNode =
  prefixed
    [EvGetPodsForDeletionOnNodeDrain "on-demand-1";
     EvLog SevInfo (MsgBlockingPod (Some "pod is not replicated"));
     EvLog SevError (MsgFailedPodsForConsideration "pod is not replicated")]
    (drainLoop config [] [spot1] [] emptySnap 0 Strict.orphanOnNode).
Proof.
  etransitivity.
  - apply (drainLoop_helper_error config (onDemand [1%nat]) [] [spot1] []
             emptySnap 0 Strict.orphanOnNode "pod is not replicated").
    vm_compute. reflexivity.
  - vm_compute. reflexivity.
Defined.

Lemma canDrainNode_without_spot_nodes_witness :
  Forall (fun pod => is_Some (heap twoPods !! pod)) [1%nat; 2%nat] /\
  res_st (canDrainNode emptySnap [] [1%nat; 2%nat] twoPods) = twoPods /\
  placements (res_evs (canDrainNode emptySnap [] [1%nat; 2%nat] twoPods)) = [] /\
  exists r,
    res_out (canDrainNode emptySnap [] [1%nat; 2%nat] twoPods) = Ok (r, emptySnap) /\
    (r = None <->
     Forall (fun pod => forall p, heap twoPods !! pod = Some p ->
                                  annotation p safeToEvictKey <> "false")
            [1%nat; 2%nat]).
Proof.
  assert (H : Forall (fun pod => is_Some (heap twoPods !! pod)) [1%nat; 2%nat]).
  { repeat constructor; vm_compute; eauto. }
  split; [exact H|].
  exact (canDrainNode_without_spot_nodes emptySnap [1%nat; 2%nat] twoPods H).
Defined.

Lemma removeTaintFromAllSpotNodes_ok_witness :
  spotTaintToBeRemoved config <> "" /\
  res_out (removeTaintFromAllSpotNodes config
             [spotWith [preemptNoSchedule; gpuNoSchedule]] (tainted []))
  = Ok [spotWith [gpuNoSchedule]] /\
  Forall2 (reconciled (spotTaintToBeRemoved config))
          [spotWith [preemptNoSchedule; gpuNoSchedule]]
          [spotWith [gpuNoSchedule]].
Proof.
  assert (Hkey : spotTaintToBeRemoved config <> "") by discriminate.
  assert (Hok : res_out (removeTaintFromAllSpotNodes config
                           [spotWith [preemptNoSchedule; gpuNoSchedule]]
                           (tainted []))
                = Ok [spotWith [gpuNoSchedule]]) by (vm_compute; reflexivity).
  split; [exact Hkey|]. split; [exact Hok|].
  exact (removeTaintFromAllSpotNodes_ok config _ _ _ Hkey Hok).
Defined.

Lemma removeTaint_node_clean_witness :
  Forall (fun t => taint_Key t <> spotTaintToBeRemoved config)
         (node_Taints (ni_Node (spotWith [gpuNoSchedule]))) /\
  removeTaint_node config (spotWith [gpuNoSchedule]) (tainted []) =
  mkRes (Ok (spotWith [gpuNoSchedule])) (tainted []) [].
Proof.
  assert (H : Forall (fun t => taint_Key t <> spotTaintToBeRemoved config)
                     (node_Taints (ni_Node (spotWith [gpuNoSchedule]))))
    by (repeat constructor; discriminate).
  split; [exact H|].
  exact (removeTaint_node_clean config (spotWith [gpuNoSchedule]) (tainted []) H).
Defined.

Lemma removeTaint_node_updates_witness :
  res_out (removeTaint_node config
             (spotWith [preemptNoSchedule; preemptNoExecute; gpuNoSchedule])
             (tainted []))
  = Ok (spotWith [gpuNoSchedule]) /\
  updateCount (res_evs (removeTaint_node config
                          (spotWith [preemptNoSchedule; preemptNoExecute;
                                     gpuNoSchedule])
                          (tainted []))) = 2%nat.
Proof.
  assert (Hok : res_out (removeTaint_node config
                           (spotWith [preemptNoSchedule; preemptNoExecute;
                                      gpuNoSchedule])
                           (tainted []))
                = Ok (spotWith [gpuNoSchedule])) by (vm_compute; reflexivity).
  split; [exact Hok|].
  exact (removeTaint_node_updates config _ _ _ Hok).
Defined.

Lemma validateArgs_accepts_key_or_key_value_witness :
  validateArgs "kubernetes.io/role=worker" "spot" = None /\
  ((strings_Split "kubernetes.io/role=worker" "="%char
    = ["kubernetes.io/role=worker"] /\
    strings_Count "kubernetes.io/role=worker" "="%char = 0%nat) \/
   exists k v,
     strings_Split "kubernetes.io/role=worker" "="%char = [k; v] /\
     "kubernetes.io/role=worker" = k +:+ "=" +:+ v /\
     strings_Count k "="%char = 0%nat /\ strings_Count v "="%char = 0%nat).
Proof.
  assert (H : validateArgs "kubernetes.io/role=worker" "spot" = None)
    by reflexivity.
  split; [exact H|].
  exact (validateArgs_accepts_key_or_key_value _ _ _ H (or_introl eq_refl)).
Defined.
